(** * Mail delivery robot: a shallow embedding of the village simulation

    The development follows the simulation script (Eloquent JavaScript,
    chapter 7): the road graph built from edge strings, the village state
    and its [move], the three robots and the breadth-first [findRoute].

    Conventions of the embedding.
    - A location is a JavaScript value that is either a string or
      [undefined] (what destructuring a too-short array and indexing past
      the end of an array produce).  On such values [==], [!=] and
      [Array.prototype.includes] all coincide with structural equality.
    - The graph is an object without prototype used as a map from property
      keys to arrays.  It is embedded as an association list with unique
      keys, kept in insertion order, which is the order of [Object.keys]
      as long as no label is a canonical array index.
    - A computation either returns, throws a [TypeError] (reading a property
      of [undefined], iterating over [undefined]) or is still running when
      what the embedding was given runs out: the turns of the outer loop of
      [findRoute], the random draws of [random].
    - [Math.random()] is embedded as a rational of [[0,1)] and the product
      with the array length is exact. *)

From Stdlib Require Import String Ascii List Arith Lia Bool Sorted.
Import ListNotations.
Open Scope string_scope.
Open Scope list_scope.

(** ** Values and completions *)

Inductive Loc : Type :=
| undefined
| str (s : string).

Definition Loc_eq_dec (a b : Loc) : {a = b} + {a <> b}.
Proof.
  decide equality. apply string_dec.
Defined.

(** [a == b] on locations. *)
Definition loc_eqb (a b : Loc) : bool :=
  match a, b with
  | undefined, undefined => true
  | str x, str y => String.eqb x y
  | _, _ => false
  end.

(** Conversion of a value to a property key. *)
Definition key (a : Loc) : string :=
  match a with
  | undefined => "undefined"
  | str s => s
  end.

Inductive error : Type :=
| TypeError.

Inductive completion (A : Type) : Type :=
| Return (a : A)
| Throw (e : error)
| Running.

Arguments Return {A} a.
Arguments Throw {A} e.
Arguments Running {A}.

Definition bind {A B : Type} (c : completion A) (k : A -> completion B)
  : completion B :=
  match c with
  | Return a => k a
  | Throw e => Throw e
  | Running => Running
  end.

(** [array[0]]: [undefined] on the empty array. *)
Definition first (l : list Loc) : Loc :=
  match l with
  | [] => undefined
  | x :: _ => x
  end.

(** [array.slice(1)]. *)
Definition slice1 (l : list Loc) : list Loc := tl l.

(** [array.includes(x)]. *)
Definition includes (l : list Loc) (x : Loc) : bool :=
  existsb (loc_eqb x) l.

(** ** The graph object *)

Definition Graph : Type := list (string * list Loc).

(** [graph[k]]: [None] stands for [undefined]. *)
Fixpoint get (graph : Graph) (k : string) : option (list Loc) :=
  match graph with
  | [] => None
  | (k', l) :: rest => if String.eqb k' k then Some l else get rest k
  end.

(** [graph[k] = l]: an existing property keeps its position, a new one is
    added last. *)
Fixpoint set (graph : Graph) (k : string) (l : list Loc) : Graph :=
  match graph with
  | [] => [(k, l)]
  | (k', l') :: rest =>
      if String.eqb k' k then (k', l) :: rest else (k', l') :: set rest k l
  end.

(** [Object.keys(graph)], an array of strings. *)
Definition keys (graph : Graph) : list Loc := map (fun e => str (fst e)) graph.

(** [r.split("-")]. *)
Fixpoint split (r : string) : list string :=
  match r with
  | EmptyString => [""]
  | String c r' =>
      if Ascii.eqb c "-" then "" :: split r'
      else match split r' with
           | [] => [String c ""]
           | piece :: pieces => String c piece :: pieces
           end
  end.

(** The array destructuring [[from, to]] of the pieces of an edge. *)
Definition ends (r : string) : Loc * Loc :=
  match split r with
  | [] => (undefined, undefined)
  | [a] => (str a, undefined)
  | a :: b :: _ => (str a, str b)
  end.

(** The inner function [addEdge] of [buildGraph]; [push] on the array stored
    in the graph is the update of that property. *)
Definition addEdge (graph : Graph) (from to : Loc) : Graph :=
  match get graph (key from) with
  | None => set graph (key from) [to]
  | Some l => set graph (key from) (l ++ [to])
  end.

Definition buildGraph (edges : list string) : Graph :=
  fold_left
    (fun graph r =>
       let (from, to) := ends r in
       addEdge (addEdge graph from to) to from)
    edges [].

Definition roads : list string :=
  [ "Alice's House-Bob's House";
    "Alice's House-Cabin";
    "Alice's House-Post Office";
    "Bob's House-Town Hall";
    "Daria's House-Ernie's House";
    "Daria's House-Town Hall";
    "Ernie's House-Grete's House";
    "Grete's House-Farm";
    "Grete's House-Shop";
    "Marketplace-Farm";
    "Marketplace-Post Office";
    "Marketplace-Shop";
    "Shop-Town Hall" ].

Definition roadGraph : Graph := buildGraph roads.

(** An edge string is well formed when it has a separator, so that both of
    its ends are strings. *)
Definition well_formed (r : string) : bool :=
  Nat.leb 2 (List.length (split r)).

(** [a] is a vertex of [graph]: the graph has an adjacency array for it. *)
Definition is_vertex (graph : Graph) (a : Loc) : Prop :=
  get graph (key a) <> None.

(** The neighbours of a label, none when the label is not in the graph. *)
Definition neighbours (graph : Graph) (a : Loc) : list Loc :=
  match get graph (key a) with
  | None => []
  | Some l => l
  end.

(** ** Parcels and the village state *)

Module Parcel.
Record t : Type := make { place : Loc; address : Loc }.
End Parcel.

(** [Math.random()]: the rational [num / (num + slack + 1)] of [[0,1)]. *)
Record draw : Type := { num : nat; slack : nat }.

(** [Math.floor(r * n)]. *)
Definition scaled_floor (r : draw) (n : nat) : nat :=
  (num r * n) / (num r + slack r + 1).

Definition randomPick (array : list Loc) (r : draw) : Loc :=
  let choice := scaled_floor r (List.length array) in
  nth choice array undefined.

Module VillageState.
Record t : Type := make { place : Loc; parcels : list Parcel.t }.

Section OnGraph.
(** The script reads the global [roadGraph]; here it is a parameter. *)
Variable graph : Graph.

(** The parcel a parcel becomes when the robot leaves [here] for
    [destination]: the argument of [map] in [move]. *)
Definition carry (here destination : Loc) (p : Parcel.t) : Parcel.t :=
  if negb (loc_eqb (Parcel.place p) here) then p
  else Parcel.make destination (Parcel.address p).

(** The argument of [filter] in [move]. *)
Definition undelivered (p : Parcel.t) : bool :=
  negb (loc_eqb (Parcel.place p) (Parcel.address p)).

(** [graph[this.place].includes] throws when the place has no adjacency
    array. *)
Definition move (this : t) (destination : Loc) : completion t :=
  match get graph (key (place this)) with
  | None => Throw TypeError
  | Some adjacent =>
      if negb (includes adjacent destination) then Return this
      else
        let parcels :=
          filter undelivered
            (map (carry (place this) destination) (parcels this)) in
        Return (make destination parcels)
  end.

(** The [do ... while (place == address)] loop of [random].  Every turn of
    the loop takes one draw; the loop is still running when the draws given
    to the embedding are used up. *)
Fixpoint pick_place (address : Loc) (draws : list draw)
  : completion (Loc * list draw) :=
  match draws with
  | [] => Running
  | r :: draws' =>
      let place := randomPick (keys graph) r in
      if loc_eqb place address then pick_place address draws'
      else Return (place, draws')
  end.

(** The [for] loop of [random], [parcelCount] turns. *)
Fixpoint random_parcels (parcelCount : nat) (draws : list draw)
  : completion (list Parcel.t) :=
  match parcelCount with
  | 0 => Return []
  | S count =>
      match draws with
      | [] => Running
      | r :: draws' =>
          let address := randomPick (keys graph) r in
          bind (pick_place address draws') (fun pd =>
          bind (random_parcels count (snd pd)) (fun parcels =>
          Return (Parcel.make (fst pd) address :: parcels)))
      end
  end.

(** The static method [random]; [draws] are the successive values of
    [Math.random()]. *)
Definition random (parcelCount : nat) (draws : list draw) : completion t :=
  bind (random_parcels parcelCount draws) (fun parcels =>
  Return (make (str "Post Office") parcels)).
End OnGraph.
End VillageState.

(** ** Robots *)

(** What a robot returns; [randomRobot] returns an object without
    [memory]. *)
Record action : Type :=
  { direction : Loc; memory : option (list Loc) }.

Definition mailRoute : list Loc :=
  [ str "Alice's House";
    str "Cabin";
    str "Alice's House";
    str "Bob's House";
    str "Town Hall";
    str "Daria's House";
    str "Ernie's House";
    str "Grete's House";
    str "Shop";
    str "Grete's House";
    str "Farm";
    str "Marketplace";
    str "Post Office" ].

Definition routeRobot (state : VillageState.t) (memory : list Loc) : action :=
  let memory := if Nat.eqb (List.length memory) 0 then mailRoute else memory in
  {| direction := first memory; memory := Some (slice1 memory) |}.

(** ** Path finder *)

Record item : Type := { at_ : Loc; route : list Loc }.

(** The result of the inner loop of [findRoute] over the neighbours of one
    work item: the function returned, or the loop ended with [work]. *)
Inductive scan : Type :=
| Hit (r : list Loc)
| Grown (work : list item).

Fixpoint scan_places (to : Loc) (route : list Loc) (places : list Loc)
  (work : list item) : scan :=
  match places with
  | [] => Grown work
  | place :: places' =>
      if loc_eqb place to then Hit (route ++ [place])
      else if negb (existsb (fun w => loc_eqb (at_ w) place) work)
      then scan_places to route places'
             (work ++ [{| at_ := place; route := route ++ [place] |}])
      else scan_places to route places' work
  end.

(** The outer loop, from index [i]; [Return None] is the [undefined] that
    the function returns when the loop ends. *)
Fixpoint findRoute_loop (fuel : nat) (graph : Graph) (to : Loc) (i : nat)
  (work : list item) : completion (option (list Loc)) :=
  match fuel with
  | 0 => Running
  | S fuel' =>
      match nth_error work i with
      | None => Return None
      | Some w =>
          match get graph (key (at_ w)) with
          | None => Throw TypeError
          | Some places =>
              match scan_places to (route w) places work with
              | Hit r => Return (Some r)
              | Grown work' => findRoute_loop fuel' graph to (S i) work'
              end
          end
      end
  end.

Definition findRoute_fuel (fuel : nat) (graph : Graph) (from to : Loc)
  : completion (option (list Loc)) :=
  findRoute_loop fuel graph to 0 [{| at_ := from; route := [] |}].

(** All the entries of all the adjacency arrays. *)
Definition entries (graph : Graph) : list Loc := concat (map snd graph).

(** Enough turns of the outer loop for any call on [graph]
    (see [findRoute_loop_enough]). *)
Definition turns (graph : Graph) : nat := 2 + List.length (entries graph).

Definition findRoute (graph : Graph) (from to : Loc)
  : completion (option (list Loc)) :=
  findRoute_fuel (turns graph) graph from to.

Section Robots.
(** The global [roadGraph] of the script. *)
Variable graph : Graph.

(** [randomPick(undefined)] throws on reading [length]. *)
Definition randomRobot (state : VillageState.t) (r : draw)
  : completion action :=
  match get graph (key (VillageState.place state)) with
  | None => Throw TypeError
  | Some adjacent =>
      Return {| direction := randomPick adjacent r; memory := None |}
  end.

(** Reading [place] of the missing first parcel throws, and so does
    indexing the [undefined] that [findRoute] returns when it finds no
    route. *)
Definition goalOrientedRobot (state : VillageState.t) (route : list Loc)
  : completion action :=
  let place := VillageState.place state in
  let parcels := VillageState.parcels state in
  bind
    (if Nat.eqb (List.length route) 0 then
       match parcels with
       | [] => Throw TypeError
       | parcel :: _ =>
           if negb (loc_eqb (Parcel.place parcel) place)
           then findRoute graph place (Parcel.place parcel)
           else findRoute graph place (Parcel.address parcel)
       end
     else Return (Some route))
    (fun route =>
       match route with
       | None => Throw TypeError
       | Some route =>
           Return {| direction := first route;
                     memory := Some (slice1 route) |}
       end).
End Robots.

(** ** Notions used in the statements *)

(** The adjacency array under a property key, empty when there is none. *)
Definition adj (graph : Graph) (k : string) : list Loc :=
  match get graph k with
  | None => []
  | Some l => l
  end.

(** One turn of the loop of [buildGraph]. *)
Definition add_road (graph : Graph) (r : string) : Graph :=
  let (from, to) := ends r in addEdge (addEdge graph from to) to from.

(** Every neighbour listed in a built graph has an adjacency array of its
    own. *)
Definition closed (graph : Graph) : Prop :=
  forall k l x, get graph k = Some l -> In x l -> get graph (key x) <> None.

(** [walk graph a r]: [r] lists the successive stops of a walk that starts
    at [a] and follows one road at each step. *)
Fixpoint walk (graph : Graph) (a : Loc) (r : list Loc) : Prop :=
  match r with
  | [] => True
  | b :: r' => In b (neighbours graph a) /\ walk graph b r'
  end.

(** Where a walk from [a] along [r] ends: at the last stop, or at [a]
    itself when there is none. *)
Fixpoint arrival (a : Loc) (r : list Loc) : Loc :=
  match r with
  | [] => a
  | b :: r' => arrival b r'
  end.

Definition reachable (graph : Graph) (a b : Loc) : Prop :=
  exists r, walk graph a r /\ arrival a r = b.

(** Invariant of the outer loop of [findRoute] when it reaches the work
    item of index [length done] in the work list [done ++ todo]. *)
Definition len (w : item) : nat := List.length (route w).

Definition by_len (x y : item) : Prop := len x <= len y.

Definition sound (graph : Graph) (from : Loc) (w : item) : Prop :=
  walk graph from (route w) /\ arrival from (route w) = at_ w.

Record bfs_inv (graph : Graph) (from to : Loc) (done todo : list item)
  : Prop :=
  { inv_sound : forall w, In w (done ++ todo) -> sound graph from w;
    inv_start :
      exists w0, In w0 (done ++ todo) /\ at_ w0 = from /\ route w0 = [];
    inv_done :
      forall w u,
        In w done -> In u (neighbours graph (at_ w)) ->
        u <> to /\
        exists x, In x (done ++ todo) /\ at_ x = u /\ len x <= S (len w);
    inv_sorted : StronglySorted by_len (done ++ todo);
    inv_next :
      forall cur rest x,
        todo = cur :: rest -> In x (done ++ todo) -> len x <= S (len cur) }.

Arguments inv_sound {graph from to done todo} _ w _.
Arguments inv_start {graph from to done todo} _.
Arguments inv_done {graph from to done todo} _ w u _ _.
Arguments inv_sorted {graph from to done todo} _.
Arguments inv_next {graph from to done todo} _ cur rest x _ _.

(** [r] is a shortest walk with at least one step from [from] to [to]. *)
Definition shortest_route (graph : Graph) (from to : Loc) (r : list Loc)
  : Prop :=
  r <> [] /\ walk graph from r /\ arrival from r = to /\
  forall r',
    r' <> [] -> walk graph from r' -> arrival from r' = to ->
    List.length r <= List.length r'.

(** What [findRoute_loop] may answer from a state that satisfies the
    invariant. *)
Definition answer_ok (graph : Graph) (from to : Loc)
  (c : completion (option (list Loc))) : Prop :=
  match c with
  | Return (Some r) => shortest_route graph from to r
  | Return None =>
      forall q, q <> [] -> walk graph from q -> arrival from q <> to
  | Throw _ | Running => True
  end.

(** [findRoute] returned a route. *)
Definition finds (c : completion (option (list Loc))) : bool :=
  match c with
  | Return (Some _) => true
  | _ => false
  end.

(** ** The step counter *)

(** A robot as [countSteps] calls it: with the state, with whatever the
    previous action left as memory ([None] for [undefined]) and with the
    draws that [Math.random()] has yet to return. *)
Definition robot : Type :=
  VillageState.t -> option (list Loc) -> list draw ->
  completion (action * list draw).

(** [randomRobot] as a robot: it takes one draw and ignores the memory. *)
Definition random_robot (graph : Graph) : robot :=
  fun state _ draws =>
    match draws with
    | [] => Running
    | r :: draws' =>
        bind (randomRobot graph state r) (fun a => Return (a, draws'))
    end.

(** [routeRobot] as a robot: reading [length] of an [undefined] memory
    throws. *)
Definition route_robot : robot :=
  fun state memory draws =>
    match memory with
    | None => Throw TypeError
    | Some memory => Return (routeRobot state memory, draws)
    end.

(** [goalOrientedRobot] as a robot: reading [length] of an [undefined]
    route throws. *)
Definition goal_robot (graph : Graph) : robot :=
  fun state memory draws =>
    match memory with
    | None => Throw TypeError
    | Some route =>
        bind (goalOrientedRobot graph state route) (fun a => Return (a, draws))
    end.

(** The loop of [countSteps], from the turn counter [steps]. *)
Fixpoint countSteps_loop (fuel : nat) (graph : Graph) (robot : robot)
  (state : VillageState.t) (memory : option (list Loc)) (draws : list draw)
  (steps : nat) : completion nat :=
  match fuel with
  | 0 => Running
  | S fuel' =>
      if Nat.eqb (List.length (VillageState.parcels state)) 0
      then Return steps
      else
        bind (robot state memory draws) (fun ad =>
        let '({| direction := direction; memory := memory |}, draws) := ad in
        bind (VillageState.move graph state direction) (fun state =>
        countSteps_loop fuel' graph robot state memory draws (S steps)))
  end.

Definition countSteps (fuel : nat) (graph : Graph) (robot : robot)
  (state : VillageState.t) (memory : option (list Loc)) (draws : list draw)
  : completion nat :=
  countSteps_loop fuel graph robot state memory draws 0.

(** ** More notions used in the statements *)

(** No character of the string is the separator. *)
Fixpoint no_dash (s : string) : bool :=
  match s with
  | EmptyString => true
  | String c s' => negb (Ascii.eqb c "-") && no_dash s'
  end.

(** What the road [r] adds to the adjacency array under the key [k]. *)
Definition mentions (k : string) (r : string) : list Loc :=
  let (from, to) := ends r in
  (if String.eqb (key from) k then [to] else []) ++
  (if String.eqb (key to) k then [from] else []).

(** The place of the state and the two ends of its parcels are vertices. *)
Definition on_graph (graph : Graph) (s : VillageState.t) : Prop :=
  is_vertex graph (VillageState.place s) /\
  forall p, In p (VillageState.parcels s) ->
            is_vertex graph (Parcel.place p) /\
            is_vertex graph (Parcel.address p).

(** The state that [move] builds when the destination is a neighbour. *)
Definition moved (s : VillageState.t) (d : Loc) : VillageState.t :=
  VillageState.make d
    (filter VillageState.undelivered
       (map (VillageState.carry (VillageState.place s) d)
          (VillageState.parcels s))).

(** The state after successive moves along [r]. *)
Definition travel (s : VillageState.t) (r : list Loc) : VillageState.t :=
  fold_left moved r s.

(** What becomes of one parcel when the robot leaves [here] for [d], and
    when it leaves [here] along [r]: [None] once it is delivered. *)
Definition fate1 (here d : Loc) (p : Parcel.t) : option Parcel.t :=
  let p' := VillageState.carry here d p in
  if VillageState.undelivered p' then Some p' else None.

Fixpoint fate (here : Loc) (r : list Loc) (p : Parcel.t) : option Parcel.t :=
  match r with
  | [] => Some p
  | d :: r' =>
      match fate1 here d p with
      | None => None
      | Some p' => fate d r' p'
      end
  end.

Definition survivors (o : option Parcel.t) : list Parcel.t :=
  match o with
  | None => []
  | Some p => [p]
  end.

(** The computation returns a number of turns that is at most [bound]. *)
Definition ends_within (bound : nat) (c : completion nat) : Prop :=
  exists steps, c = Return steps /\ steps <= bound.

(** [findRoute] returns a route of at most [longest] stops between any two
    vertices. *)
Definition routed (graph : Graph) (longest : nat) : Prop :=
  forall a b,
    is_vertex graph a -> is_vertex graph b ->
    exists r, findRoute graph a b = Return (Some r) /\
              List.length r <= longest.

(** The length of the route found, [0] when there is none. *)
Definition route_length (c : completion (option (list Loc))) : nat :=
  match c with
  | Return (Some r) => List.length r
  | _ => 0
  end.

(** [walk], decided. *)
Fixpoint walkb (graph : Graph) (a : Loc) (r : list Loc) : bool :=
  match r with
  | [] => true
  | b :: r' => includes (neighbours graph a) b && walkb graph b r'
  end.

(** A robot that, given a memory with a first stop, heads for that stop and
    keeps the others, without taking a draw: the route robot and the
    goal-oriented robot do. *)
Definition follows (rb : robot) : Prop :=
  forall s d m draws,
    rb s (Some (d :: m)) draws =
    Return ({| direction := d; memory := Some m |}, draws).

(** The place the goal-oriented robot plans a route to. *)
Definition target (s : VillageState.t) (parcel : Parcel.t) : Loc :=
  if negb (loc_eqb (Parcel.place parcel) (VillageState.place s))
  then Parcel.place parcel
  else Parcel.address parcel.

(** The parcel is delivered. *)
Definition gone (o : option Parcel.t) : bool :=
  match o with
  | None => true
  | Some _ => false
  end.

(** How many times the road [r] is a road between [a] and [b], one way or
    the other; a road from a label to itself counts for both ways. *)
Definition declares (a b : string) (r : string) : nat :=
  let (from, to) := ends r in
  (if loc_eqb from (str a) && loc_eqb to (str b) then 1 else 0) +
  (if loc_eqb from (str b) && loc_eqb to (str a) then 1 else 0).

(** How many times the edge list declares a road between [a] and [b]. *)
Definition declarations (edges : list string) (a b : string) : nat :=
  list_sum (map (declares a b) edges).

(** * Properties *)

(** ** Equality and arrays *)

Lemma loc_eqb_eq (a b : Loc) : loc_eqb a b = true <-> a = b.
Proof.
  destruct a as [|x], b as [|y]; simpl; split; try congruence; try reflexivity.
  - intros H. apply String.eqb_eq in H. now subst.
  - intros H. injection H as ->. apply String.eqb_refl.
Qed.

Lemma loc_eqb_refl (a : Loc) : loc_eqb a a = true.
Proof. now apply loc_eqb_eq. Qed.

Lemma loc_eqb_neq (a b : Loc) : loc_eqb a b = false <-> a <> b.
Proof.
  rewrite <- loc_eqb_eq. destruct (loc_eqb a b); split; congruence.
Qed.

Lemma loc_eqb_spec (a b : Loc) : reflect (a = b) (loc_eqb a b).
Proof.
  destruct (loc_eqb a b) eqn:E; constructor.
  - now apply loc_eqb_eq.
  - now apply loc_eqb_neq.
Qed.

Lemma includes_In (l : list Loc) (x : Loc) : includes l x = true <-> In x l.
Proof.
  unfold includes. rewrite existsb_exists. split.
  - intros (y & Hy & E). apply loc_eqb_eq in E. now subst.
  - intros H. exists x. split; [assumption | apply loc_eqb_refl].
Qed.

Lemma includes_not_In (l : list Loc) (x : Loc) :
  includes l x = false <-> ~ In x l.
Proof.
  rewrite <- includes_In. destruct (includes l x); split; congruence.
Qed.

(** ** The graph object *)

Lemma get_set_same (graph : Graph) (k : string) (l : list Loc) :
  get (set graph k l) k = Some l.
Proof.
  induction graph as [|[k' l'] rest IH]; simpl.
  - now rewrite String.eqb_refl.
  - destruct (String.eqb k' k) eqn:E; simpl; rewrite E; auto.
Qed.

Lemma get_set_other (graph : Graph) (k k' : string) (l : list Loc) :
  k <> k' -> get (set graph k l) k' = get graph k'.
Proof.
  intros Hne. induction graph as [|[k0 l0] rest IH]; simpl.
  - destruct (String.eqb_spec k k'); congruence.
  - destruct (String.eqb_spec k0 k) as [->|Hk]; simpl.
    + destruct (String.eqb_spec k k'); congruence.
    + now rewrite IH.
Qed.

Lemma neighbours_adj (graph : Graph) (a : Loc) :
  neighbours graph a = adj graph (key a).
Proof. reflexivity. Qed.

Lemma get_addEdge (graph : Graph) (from to : Loc) (k : string) :
  get (addEdge graph from to) k =
  if String.eqb (key from) k then Some (adj graph k ++ [to]) else get graph k.
Proof.
  unfold addEdge, adj.
  destruct (String.eqb_spec (key from) k) as [<-|Hne].
  - destruct (get graph (key from)); now rewrite get_set_same.
  - destruct (get graph (key from)); now rewrite get_set_other.
Qed.

Lemma adj_addEdge (graph : Graph) (from to : Loc) (k : string) :
  adj (addEdge graph from to) k =
  if String.eqb (key from) k then adj graph k ++ [to] else adj graph k.
Proof.
  unfold adj at 1. rewrite get_addEdge.
  now destruct (String.eqb (key from) k).
Qed.

Lemma In_get_In_entries (graph : Graph) (k : string) (l : list Loc) (x : Loc) :
  get graph k = Some l -> In x l -> In x (entries graph).
Proof.
  unfold entries. induction graph as [|[k' l'] rest IH]; simpl; [discriminate|].
  intros Hget Hin. apply in_or_app.
  destruct (String.eqb k' k).
  - injection Hget as ->. now left.
  - right. now apply IH.
Qed.

Lemma get_In_keys (graph : Graph) (k : string) :
  get graph k <> None <-> In (str k) (keys graph).
Proof.
  unfold keys. induction graph as [|[k' l'] rest IH]; simpl.
  - tauto.
  - destruct (String.eqb_spec k' k) as [->|Hne].
    + split; [now left | discriminate].
    + rewrite IH. split; [now right |].
      intros [E|H]; [congruence | assumption].
Qed.

Lemma buildGraph_fold (edges : list string) :
  buildGraph edges = fold_left add_road edges [].
Proof. reflexivity. Qed.

(** An invariant of the loop holds of the graph built. *)
Lemma buildGraph_ind (P : Graph -> Prop) :
  P [] ->
  (forall graph from to, P graph -> P (addEdge (addEdge graph from to) to from)) ->
  forall edges, P (buildGraph edges).
Proof.
  intros Hnil Hstep edges. rewrite buildGraph_fold.
  generalize (@nil (string * list Loc)) Hnil.
  induction edges as [|r edges IH]; intros graph Hg; simpl; [assumption|].
  apply IH. unfold add_road. destruct (ends r) as [from to]. now apply Hstep.
Qed.

Lemma well_formed_ends (r : string) :
  well_formed r = true -> exists a b, ends r = (str a, str b).
Proof.
  unfold well_formed, ends. destruct (split r) as [|a [|b pieces]]; simpl;
    try discriminate.
  intros _. now exists a, b.
Qed.

Lemma buildGraph_closed (edges : list string) : closed (buildGraph edges).
Proof.
  apply buildGraph_ind.
  - intros k l x H. discriminate.
  - intros graph from to Hc k l x Hget Hin.
    assert (Hkeep : forall k', get graph k' <> None ->
              get (addEdge (addEdge graph from to) to from) k' <> None).
    { intros k' H. rewrite !get_addEdge.
      destruct (String.eqb (key to) k'); [discriminate|].
      destruct (String.eqb (key from) k'); [discriminate | assumption]. }
    assert (Hfrom : get (addEdge (addEdge graph from to) to from) (key from)
                    <> None).
    { rewrite !get_addEdge.
      destruct (String.eqb (key to) (key from)); [discriminate|].
      rewrite String.eqb_refl. discriminate. }
    assert (Hto : get (addEdge (addEdge graph from to) to from) (key to)
                  <> None).
    { rewrite get_addEdge, String.eqb_refl. discriminate. }
    assert (Hold : forall k', In x (adj graph k') -> get graph (key x) <> None).
    { intros k'. unfold adj. destruct (get graph k') eqn:E; [|contradiction].
      intros H. eapply Hc; eassumption. }
    rewrite get_addEdge in Hget.
    destruct (String.eqb (key to) k).
    + injection Hget as <-. rewrite adj_addEdge in Hin.
      apply in_app_or in Hin. destruct Hin as [Hin|[<-|[]]]; [|assumption].
      destruct (String.eqb (key from) k).
      * apply in_app_or in Hin. destruct Hin as [Hin|[<-|[]]]; [|assumption].
        apply Hkeep. eapply Hold; eassumption.
      * apply Hkeep. eapply Hold; eassumption.
    + rewrite get_addEdge in Hget. destruct (String.eqb (key from) k).
      * injection Hget as <-.
        apply in_app_or in Hin. destruct Hin as [Hin|[<-|[]]]; [|assumption].
        apply Hkeep. eapply Hold; eassumption.
      * apply Hkeep. eapply Hc; eassumption.
Qed.

(** No adjacency array of a built graph is empty. *)
Lemma buildGraph_nonempty (edges : list string) (k : string) (l : list Loc) :
  get (buildGraph edges) k = Some l -> l <> [].
Proof.
  revert k l. apply buildGraph_ind.
  - discriminate.
  - intros graph from to IH k l. rewrite !get_addEdge.
    destruct (String.eqb (key to) k).
    + intros [= <-]. now destruct (adj _ k).
    + destruct (String.eqb (key from) k).
      * intros [= <-]. now destruct (adj _ k).
      * apply IH.
Qed.

(** ** The graph builder *)

Lemma count_snoc (l : list Loc) (x y : Loc) :
  count_occ Loc_eq_dec (l ++ [x]) y =
  count_occ Loc_eq_dec l y + (if Loc_eq_dec x y then 1 else 0).
Proof.
  rewrite count_occ_app. simpl. now destruct (Loc_eq_dec x y).
Qed.

(** Adding a road in both directions keeps the adjacency counts
    symmetric. *)
Lemma addEdge_pair_symmetric (graph : Graph) (x y : string) :
  (forall a b : string,
      count_occ Loc_eq_dec (adj graph a) (str b) =
      count_occ Loc_eq_dec (adj graph b) (str a)) ->
  forall a b : string,
    count_occ Loc_eq_dec
      (adj (addEdge (addEdge graph (str x) (str y)) (str y) (str x)) a) (str b) =
    count_occ Loc_eq_dec
      (adj (addEdge (addEdge graph (str x) (str y)) (str y) (str x)) b) (str a).
Proof.
  intros Hsym a b. rewrite !adj_addEdge. simpl key.
  specialize (Hsym a b).
  destruct (String.eqb_spec y a), (String.eqb_spec x a),
    (String.eqb_spec y b), (String.eqb_spec x b); subst;
    rewrite ?count_snoc;
    repeat match goal with
      | |- context [Loc_eq_dec ?u ?v] => destruct (Loc_eq_dec u v)
      end; try congruence; lia.
Qed.

(** An invariant of the loop over well-formed edges holds of the graph
    built. *)
Lemma buildGraph_wf_ind (P : Graph -> Prop) :
  P [] ->
  (forall graph x y,
      P graph -> P (addEdge (addEdge graph (str x) (str y)) (str y) (str x))) ->
  forall edges, forallb well_formed edges = true -> P (buildGraph edges).
Proof.
  intros Hnil Hstep edges. rewrite buildGraph_fold.
  generalize (@nil (string * list Loc)) Hnil.
  induction edges as [|r edges IH]; intros graph Hg Hwf; simpl;
    [assumption|].
  simpl in Hwf. apply andb_true_iff in Hwf. destruct Hwf as [Hr Hwf].
  apply IH; [|assumption].
  destruct (well_formed_ends r Hr) as (x & y & E).
  unfold add_road. rewrite E. now apply Hstep.
Qed.

Lemma buildGraph_count_symmetric (edges : list string) :
  forallb well_formed edges = true ->
  forall a b : string,
    count_occ Loc_eq_dec (adj (buildGraph edges) a) (str b) =
    count_occ Loc_eq_dec (adj (buildGraph edges) b) (str a).
Proof.
  revert edges.
  refine (buildGraph_wf_ind
            (fun graph => forall a b : string,
                 count_occ Loc_eq_dec (adj graph a) (str b) =
                 count_occ Loc_eq_dec (adj graph b) (str a)) _ _).
  - reflexivity.
  - intros graph x y IH. now apply addEdge_pair_symmetric.
Qed.

(** With well-formed edges every neighbour is a string. *)
Lemma buildGraph_entries_str (edges : list string) :
  forallb well_formed edges = true ->
  forall k x, In x (adj (buildGraph edges) k) -> exists b, x = str b.
Proof.
  revert edges.
  refine (buildGraph_wf_ind
            (fun graph => forall k x, In x (adj graph k) -> exists b, x = str b)
            _ _).
  - intros k x [].
  - intros graph x y IH k u. rewrite !adj_addEdge. simpl key.
    destruct (String.eqb y k), (String.eqb x k); intros Hin;
      repeat (apply in_app_or in Hin; destruct Hin as [Hin|[<-|[]]]);
      eauto.
Qed.

Lemma buildGraph_In_symmetric (edges : list string) (a b : string) :
  forallb well_formed edges = true ->
  In (str b) (adj (buildGraph edges) a) ->
  In (str a) (adj (buildGraph edges) b).
Proof.
  intros Hwf Hin.
  apply (count_occ_In Loc_eq_dec).
  rewrite <- (buildGraph_count_symmetric edges Hwf a b).
  now apply (count_occ_In Loc_eq_dec).
Qed.

(** ** The village state *)

Lemma carry_here (here destination : Loc) (p : Parcel.t) :
  Parcel.place p = here ->
  VillageState.carry here destination p =
  Parcel.make destination (Parcel.address p).
Proof.
  intros <-. unfold VillageState.carry. now rewrite loc_eqb_refl.
Qed.

Lemma carry_elsewhere (here destination : Loc) (p : Parcel.t) :
  Parcel.place p <> here -> VillageState.carry here destination p = p.
Proof.
  intros H. unfold VillageState.carry.
  apply loc_eqb_neq in H. now rewrite H.
Qed.

Lemma undelivered_iff (p : Parcel.t) :
  VillageState.undelivered p = true <-> Parcel.place p <> Parcel.address p.
Proof.
  unfold VillageState.undelivered. rewrite negb_true_iff. apply loc_eqb_neq.
Qed.

Lemma move_adjacent (graph : Graph) (s : VillageState.t) (d : Loc) :
  In d (neighbours graph (VillageState.place s)) ->
  VillageState.move graph s d =
  Return (VillageState.make d
            (filter VillageState.undelivered
               (map (VillageState.carry (VillageState.place s) d)
                  (VillageState.parcels s)))).
Proof.
  unfold neighbours, VillageState.move.
  destruct (get graph (key (VillageState.place s))) as [l|]; [|contradiction].
  intros H. apply includes_In in H. now rewrite H.
Qed.

(** A state whose place has no adjacency array makes [move] throw. *)
Lemma move_off_graph (graph : Graph) (s : VillageState.t) (d : Loc) :
  ~ is_vertex graph (VillageState.place s) ->
  VillageState.move graph s d = Throw TypeError.
Proof.
  unfold is_vertex, VillageState.move.
  destruct (get graph (key (VillageState.place s))); [|reflexivity].
  intros H. exfalso. apply H. discriminate.
Qed.

(** C1: a move to a neighbour returns a state at the destination; its
    parcels are exactly the undelivered ones among the parcels of the old
    state, those that were at the old place now being at the destination
    and the others unchanged; there are no more parcels than before. *)
Theorem move_to_neighbour (graph : Graph) (s : VillageState.t) (d : Loc) :
  In d (neighbours graph (VillageState.place s)) ->
  exists s',
    VillageState.move graph s d = Return s' /\
    VillageState.place s' = d /\
    (forall q,
        In q (VillageState.parcels s') <->
        Parcel.place q <> Parcel.address q /\
        exists p,
          In p (VillageState.parcels s) /\
          (Parcel.place p = VillageState.place s /\
           q = Parcel.make d (Parcel.address p)
           \/
           Parcel.place p <> VillageState.place s /\ q = p)) /\
    List.length (VillageState.parcels s') <=
    List.length (VillageState.parcels s).
Proof.
  intros Hd. eexists. split; [now apply move_adjacent|]. simpl.
  split; [reflexivity|]. split.
  - intros q. rewrite filter_In, in_map_iff, undelivered_iff. split.
    + intros [(p & <- & Hp) Hq]. split; [assumption|]. exists p.
      split; [assumption|].
      destruct (Loc_eq_dec (Parcel.place p) (VillageState.place s)) as [E|E].
      * left. split; [assumption|]. now apply carry_here.
      * right. split; [assumption|]. now apply carry_elsewhere.
    + intros [Hq (p & Hp & [[E ->]|[E ->]])]; (split; [|assumption]);
        exists p; (split; [|assumption]).
      * now apply carry_here.
      * now apply carry_elsewhere.
  - etransitivity; [apply filter_length_le|]. now rewrite length_map.
Qed.

Lemma move_to_neighbour_witness :
  exists s',
    VillageState.move roadGraph
      (VillageState.make (str "Post Office")
         [Parcel.make (str "Post Office") (str "Marketplace");
          Parcel.make (str "Post Office") (str "Farm");
          Parcel.make (str "Shop") (str "Cabin")])
      (str "Marketplace") = Return s' /\
    VillageState.parcels s' =
      [Parcel.make (str "Marketplace") (str "Farm");
       Parcel.make (str "Shop") (str "Cabin")].
Proof.
  destruct (@move_to_neighbour roadGraph
              (VillageState.make (str "Post Office")
                 [Parcel.make (str "Post Office") (str "Marketplace");
                  Parcel.make (str "Post Office") (str "Farm");
                  Parcel.make (str "Shop") (str "Cabin")])
              (str "Marketplace")) as (s' & Hmove & _).
  - vm_compute. right. left. reflexivity.
  - exists s'. split; [exact Hmove|].
    vm_compute in Hmove. injection Hmove as <-. reflexivity.
Defined.

(** C2: in a state whose place is a vertex of the graph, a move to a
    location that is not a neighbour returns the state itself and does not
    throw. *)
Theorem move_to_stranger (graph : Graph) (s : VillageState.t) (d : Loc) :
  is_vertex graph (VillageState.place s) ->
  ~ In d (neighbours graph (VillageState.place s)) ->
  VillageState.move graph s d = Return s.
Proof.
  unfold is_vertex, neighbours, VillageState.move.
  destruct (get graph (key (VillageState.place s))) as [l|];
    [|intros H; now contradiction H].
  intros _ H. apply includes_not_In in H. now rewrite H.
Qed.

Lemma move_to_stranger_witness :
  VillageState.move roadGraph
    (VillageState.make (str "Post Office")
       [Parcel.make (str "Post Office") (str "Shop")])
    (str "Shop") =
  Return (VillageState.make (str "Post Office")
            [Parcel.make (str "Post Office") (str "Shop")]).
Proof.
  apply (@move_to_stranger roadGraph).
  - vm_compute. discriminate.
  - vm_compute. intros [H|[H|[]]]; discriminate H.
Defined.

(** ** Random choices *)

Lemma scaled_floor_lt (r : draw) (n : nat) : 0 < n -> scaled_floor r n < n.
Proof.
  intros Hn. unfold scaled_floor.
  apply Nat.Div0.div_lt_upper_bound. nia.
Qed.

Lemma randomPick_In (array : list Loc) (r : draw) :
  array <> [] -> In (randomPick array r) array.
Proof.
  intros Hne. unfold randomPick. apply nth_In. apply scaled_floor_lt.
  destruct array; [congruence | simpl; lia].
Qed.

(** With fewer than two elements every draw picks the same value. *)
Lemma randomPick_small (array : list Loc) (r : draw) :
  List.length array < 2 -> randomPick array r = first array.
Proof.
  unfold randomPick. destruct array as [|x [|y array]]; simpl; intros H.
  - now destruct (scaled_floor r 0).
  - pose proof (@scaled_floor_lt r 1 ltac:(lia)) as Hlt.
    now replace (scaled_floor r 1) with 0 by lia.
  - lia.
Qed.

Lemma pick_place_small (graph : Graph) (draws : list draw) :
  List.length (keys graph) < 2 ->
  VillageState.pick_place graph (first (keys graph)) draws = Running.
Proof.
  intros Hsmall. induction draws as [|r draws IH]; simpl; [reflexivity|].
  now rewrite randomPick_small, loc_eqb_refl.
Qed.

Lemma random_parcels_small (graph : Graph) (count : nat) (draws : list draw) :
  List.length (keys graph) < 2 ->
  VillageState.random_parcels graph (S count) draws = Running.
Proof.
  intros Hsmall. destruct draws as [|r draws]; simpl; [reflexivity|].
  now rewrite randomPick_small, pick_place_small.
Qed.

(** C9, as the code has it: on a graph with fewer than two vertices, a
    scenario with at least one parcel is never produced and nothing is
    thrown; whatever the draws, the resampling loop is still running when
    they are used up. *)
Theorem random_small_graph_runs (graph : Graph) (count : nat)
  (draws : list draw) :
  List.length (keys graph) < 2 ->
  VillageState.random graph (S count) draws = Running.
Proof.
  intros Hsmall. unfold VillageState.random.
  now rewrite random_parcels_small.
Qed.

Lemma random_small_graph_runs_witness :
  List.length (keys (buildGraph ["A-A"])) < 2 /\
  VillageState.random (buildGraph ["A-A"]) 5
    [Build_draw 0 0; Build_draw 1 1; Build_draw 3 0] = Running.
Proof.
  split; [vm_compute; lia|].
  apply (@random_small_graph_runs (buildGraph ["A-A"]) 4). vm_compute. lia.
Defined.

(** C9, as the specification has it, fails: on the one-vertex graph built
    from a single road, no sequence of draws makes [random] throw. *)
Lemma random_small_graph_no_error :
  ~ exists draws e,
      VillageState.random (buildGraph ["A-A"]) 1 draws = Throw e.
Proof.
  intros (draws & e & H). unfold VillageState.random in H.
  rewrite random_parcels_small in H; [discriminate|].
  vm_compute. lia.
Qed.

(** ** The fixed-route robot *)

(** C8: with an empty memory the robot starts the mail route again, with a
    memory [x :: xs] it heads for [x] and keeps [xs]; the state plays no
    part. *)
Theorem routeRobot_steps :
  (forall state,
      routeRobot state [] =
      {| direction := first mailRoute; memory := Some (slice1 mailRoute) |}) /\
  (forall state x xs,
      routeRobot state (x :: xs) = {| direction := x; memory := Some xs |}) /\
  (forall state state' m, routeRobot state m = routeRobot state' m).
Proof.
  repeat split.
Qed.

(** ** The random robot *)

(** C10: on a built graph, in a state whose place is a vertex, the random
    robot heads for one of the neighbours of the place, whatever the draw,
    and [move] then takes the branch that builds a new state. *)
Theorem randomRobot_adjacent (edges : list string) (s : VillageState.t)
  (r : draw) :
  is_vertex (buildGraph edges) (VillageState.place s) ->
  exists d,
    randomRobot (buildGraph edges) s r =
      Return {| direction := d; memory := None |} /\
    In d (neighbours (buildGraph edges) (VillageState.place s)) /\
    VillageState.move (buildGraph edges) s d =
      Return (VillageState.make d
                (filter VillageState.undelivered
                   (map (VillageState.carry (VillageState.place s) d)
                      (VillageState.parcels s)))).
Proof.
  unfold is_vertex. intros Hv.
  destruct (get (buildGraph edges) (key (VillageState.place s)))
    as [l|] eqn:Hget; [|congruence].
  assert (Hin : In (randomPick l r)
                  (neighbours (buildGraph edges) (VillageState.place s))).
  { unfold neighbours. rewrite Hget. apply randomPick_In.
    eapply buildGraph_nonempty; eassumption. }
  exists (randomPick l r). split; [|split].
  - unfold randomRobot. now rewrite Hget.
  - assumption.
  - now apply move_adjacent.
Qed.

Lemma randomRobot_adjacent_witness :
  exists d,
    randomRobot roadGraph
      (VillageState.make (str "Post Office") []) (Build_draw 1 1) =
      Return {| direction := d; memory := None |} /\
    In d (neighbours roadGraph (str "Post Office")).
Proof.
  destruct (@randomRobot_adjacent roads
              (VillageState.make (str "Post Office") []) (Build_draw 1 1))
    as (d & Hd & Hin & _).
  - vm_compute. discriminate.
  - exists d. split; assumption.
Defined.

(** ** Walks *)

Lemma walk_app (graph : Graph) (a : Loc) (r1 r2 : list Loc) :
  walk graph a (r1 ++ r2) <->
  walk graph a r1 /\ walk graph (arrival a r1) r2.
Proof.
  revert a. induction r1 as [|b r1 IH]; intros a; simpl.
  - tauto.
  - rewrite IH. tauto.
Qed.

Lemma arrival_app (a : Loc) (r1 r2 : list Loc) :
  arrival a (r1 ++ r2) = arrival (arrival a r1) r2.
Proof.
  revert a. induction r1 as [|b r1 IH]; intros a; simpl; auto.
Qed.

Lemma walk_snoc (graph : Graph) (a u : Loc) (r : list Loc) :
  walk graph a (r ++ [u]) <->
  walk graph a r /\ In u (neighbours graph (arrival a r)).
Proof.
  rewrite walk_app. simpl. tauto.
Qed.

Lemma arrival_snoc (a u : Loc) (r : list Loc) : arrival a (r ++ [u]) = u.
Proof. now rewrite arrival_app. Qed.

Lemma arrival_last (a b : Loc) (r : list Loc) :
  arrival b r = last (b :: r) a.
Proof.
  revert b. induction r as [|c r IH]; intros b; [reflexivity|].
  simpl arrival. rewrite IH. reflexivity.
Qed.

(** A walk that arrives somewhere else than where it starts has a last
    step. *)
Lemma walk_last_step (a b : Loc) (r : list Loc) :
  r <> [] -> arrival a r = b -> exists q, r = q ++ [b].
Proof.
  intros Hne Hb. destruct (exists_last Hne) as (q & u & ->).
  rewrite arrival_snoc in Hb. subst u. now exists q.
Qed.

(** ** The inner loop of the path finder *)

Lemma some_at (work : list item) (place : Loc) :
  existsb (fun w => loc_eqb (at_ w) place) work = true <->
  In place (map at_ work).
Proof.
  rewrite existsb_exists, in_map_iff. split.
  - intros (w & Hw & E). apply loc_eqb_eq in E. now exists w.
  - intros (w & E & Hw). exists w. split; [assumption|].
    now apply loc_eqb_eq.
Qed.

Lemma scan_places_hit (to : Loc) (rt places : list Loc) (work : list item)
  (r : list Loc) :
  scan_places to rt places work = Hit r -> In to places /\ r = rt ++ [to].
Proof.
  revert work. induction places as [|place places IH]; intros work; simpl;
    [discriminate|].
  destruct (loc_eqb_spec place to) as [->|Hne].
  - intros [= <-]. auto.
  - destruct (negb _); intros H; apply IH in H; tauto.
Qed.

Lemma scan_places_found (to : Loc) (rt places : list Loc) (work : list item) :
  In to places -> scan_places to rt places work = Hit (rt ++ [to]).
Proof.
  revert work. induction places as [|place places IH]; intros work; simpl;
    [contradiction|].
  destruct (loc_eqb_spec place to) as [->|Hne]; [reflexivity|].
  intros [E|Hin]; [contradiction|].
  destruct (negb _); now apply IH.
Qed.

Lemma scan_places_grown (to : Loc) (rt places : list Loc)
  (work work' : list item) :
  scan_places to rt places work = Grown work' ->
  ~ In to places /\
  exists new,
    work' = work ++ new /\
    (forall x, In x new -> In (at_ x) places /\ route x = rt ++ [at_ x]) /\
    (forall u, In u places -> In u (map at_ work')) /\
    (NoDup (map at_ work) -> NoDup (map at_ work')).
Proof.
  revert work. induction places as [|place places IH]; intros work; simpl.
  - intros [= <-]. split; [tauto|]. exists []. rewrite app_nil_r.
    split; [reflexivity|]. split; [intros x []|]. split; [intros u []|auto].
  - destruct (loc_eqb_spec place to) as [->|Hne]; [discriminate|].
    destruct (existsb _ work) eqn:Hsome; simpl; intros H; apply IH in H;
      destruct H as (Hto & new & -> & Hnew & Hall & Hnd).
    + split; [tauto|]. exists new. split; [reflexivity|].
      split; [|split].
      * intros x Hx. destruct (Hnew x Hx). tauto.
      * intros u [<-|Hu]; [|now apply Hall].
        rewrite map_app. apply in_or_app. left. now apply some_at.
      * assumption.
    + split; [tauto|].
      exists ({| at_ := place; route := rt ++ [place] |} :: new).
      split; [now rewrite <- app_assoc|]. split; [|split].
      * intros x [<-|Hx]; [simpl; tauto|]. destruct (Hnew x Hx). tauto.
      * intros u [<-|Hu]; [|now apply Hall].
        rewrite !map_app. apply in_or_app. left. apply in_or_app. right.
        now left.
      * intros Hw. apply Hnd. rewrite map_app. simpl.
        apply NoDup_app_remove_r with (l' := []).
        rewrite <- app_assoc. simpl.
        apply NoDup_Add with (a := place) (l := map at_ work).
        -- rewrite <- (app_nil_r (map at_ work)) at 1. apply Add_app.
        -- split; [assumption|]. intros Hin. apply some_at in Hin. congruence.
Qed.

(** ** Sorted work lists *)

Section Sorted.
Variables (A : Type) (R : A -> A -> Prop).

Lemma StronglySorted_app_inv (l1 l2 : list A) :
  StronglySorted R (l1 ++ l2) ->
  forall x y, In x l1 -> In y l2 -> R x y.
Proof.
  induction l1 as [|a l1 IH]; simpl; intros Hs x y Hx Hy; [contradiction|].
  apply StronglySorted_inv in Hs. destruct Hs as [Hs Hall].
  destruct Hx as [<-|Hx]; [|now apply IH].
  rewrite Forall_forall in Hall. apply Hall. apply in_or_app. now right.
Qed.

Lemma StronglySorted_app (l1 l2 : list A) :
  StronglySorted R l1 -> StronglySorted R l2 ->
  (forall x y, In x l1 -> In y l2 -> R x y) ->
  StronglySorted R (l1 ++ l2).
Proof.
  induction l1 as [|a l1 IH]; simpl; intros H1 H2 Hc; [assumption|].
  apply StronglySorted_inv in H1. destruct H1 as [H1 Hall].
  constructor.
  - apply IH; auto.
  - apply Forall_app. split; [assumption|].
    apply Forall_forall. intros y Hy. apply Hc; auto.
Qed.

Lemma StronglySorted_all (l : list A) :
  (forall x y, In x l -> In y l -> R x y) -> StronglySorted R l.
Proof.
  induction l as [|a l IH]; intros H; constructor.
  - apply IH. intros x y Hx Hy. apply H; now right.
  - apply Forall_forall. intros y Hy. apply H; [now left | now right].
Qed.
End Sorted.

Arguments StronglySorted_app_inv {A R} l1 l2 _ x y _ _.
Arguments StronglySorted_app {A R} l1 l2 _ _ _.
Arguments StronglySorted_all {A R} l _.

(** ** The outer loop of the path finder: it ends *)

Lemma findRoute_loop_enough (universe : list Loc) (graph : Graph) (to : Loc) :
  (forall k l x, get graph k = Some l -> In x l -> In x universe) ->
  forall fuel i work,
    NoDup (map at_ work) -> incl (map at_ work) universe ->
    i <= List.length work -> List.length universe < fuel + i ->
    findRoute_loop fuel graph to i work <> Running.
Proof.
  intros Hu. induction fuel as [|fuel IH]; intros i work Hnd Hincl Hi Hfuel.
  - pose proof (NoDup_incl_length Hnd Hincl) as Hlen.
    rewrite length_map in Hlen. simpl in Hfuel. lia.
  - simpl. destruct (nth_error work i) as [w|] eqn:Hw; [|discriminate].
    destruct (get graph (key (at_ w))) as [places|] eqn:Hget; [|discriminate].
    destruct (scan_places to (route w) places work) as [r|work'] eqn:Hscan;
      [discriminate|].
    apply scan_places_grown in Hscan.
    destruct Hscan as (_ & new & -> & Hnew & _ & Hnd').
    assert (i < List.length work) by (apply nth_error_Some; congruence).
    apply IH.
    + auto.
    + rewrite map_app. apply incl_app; [assumption|].
      intros u Hin. apply in_map_iff in Hin. destruct Hin as (x & <- & Hx).
      apply (Hu _ _ _ Hget). now apply Hnew.
    + rewrite length_app. lia.
    + lia.
Qed.

(** [findRoute] gives the loop enough turns, whatever the graph. *)
Lemma findRoute_ends (graph : Graph) (from to : Loc) :
  findRoute graph from to <> Running.
Proof.
  unfold findRoute, findRoute_fuel.
  apply findRoute_loop_enough with (universe := from :: entries graph).
  - intros k l x Hget Hin. right. eapply In_get_In_entries; eassumption.
  - simpl. constructor; [tauto | constructor].
  - intros u [<-|[]]. now left.
  - simpl. lia.
  - unfold turns. simpl. lia.
Qed.

(** On a closed graph the work list only holds vertices, so there are at
    most as many turns as vertices, [undefined] counted apart from the
    label of the same name. *)
Lemma findRoute_fuel_ends (graph : Graph) (from to : Loc) (fuel : nat) :
  closed graph -> is_vertex graph from ->
  List.length (keys graph) + 2 <= fuel ->
  findRoute_fuel fuel graph from to <> Running.
Proof.
  intros Hc Hfrom Hfuel.
  assert (Hv : forall x, is_vertex graph x -> In x (undefined :: keys graph)).
  { intros [|k] Hx; [now left|]. right. now apply get_In_keys. }
  unfold findRoute_fuel.
  apply findRoute_loop_enough with (universe := undefined :: keys graph).
  - intros k l x Hget Hin. apply Hv. eapply Hc; eassumption.
  - simpl. constructor; [tauto | constructor].
  - intros u [<-|[]]. now apply Hv.
  - simpl. lia.
  - simpl. lia.
Qed.

(** ** The outer loop of the path finder: it does not throw *)

Lemma findRoute_loop_no_throw (graph : Graph) (to : Loc) :
  closed graph ->
  forall fuel i work e,
    (forall w, In w work -> is_vertex graph (at_ w)) ->
    findRoute_loop fuel graph to i work <> Throw e.
Proof.
  intros Hc. induction fuel as [|fuel IH]; intros i work e Hv; simpl;
    [discriminate|].
  destruct (nth_error work i) as [w|] eqn:Hw; [|discriminate].
  apply nth_error_In in Hw.
  destruct (get graph (key (at_ w))) as [places|] eqn:Hget.
  - destruct (scan_places to (route w) places work) as [r|work'] eqn:Hscan;
      [discriminate|].
    apply scan_places_grown in Hscan.
    destruct Hscan as (_ & new & -> & Hnew & _).
    apply IH. intros x Hx. apply in_app_or in Hx. destruct Hx as [Hx|Hx].
    + now apply Hv.
    + eapply Hc; [eassumption|]. now apply Hnew.
  - exfalso. now apply (Hv w Hw).
Qed.

Lemma findRoute_fuel_no_throw (graph : Graph) (from to : Loc) (fuel : nat)
  (e : error) :
  closed graph -> is_vertex graph from ->
  findRoute_fuel fuel graph from to <> Throw e.
Proof.
  intros Hc Hfrom. apply findRoute_loop_no_throw; [assumption|].
  now intros w [<-|[]].
Qed.

(** ** The outer loop of the path finder: what it answers *)

Section Invariant.
Variables (graph : Graph) (from to : Loc).

Lemma bfs_inv_init :
  bfs_inv graph from to [] [{| at_ := from; route := [] |}].
Proof.
  constructor; simpl.
  - intros w [<-|[]]. split; reflexivity.
  - eexists. split; [now left|]. split; reflexivity.
  - intros w u [].
  - constructor; constructor.
  - intros cur rest x [= <- <-] [<-|[]]. lia.
Qed.

(** An item with a shorter route than the current one was treated before. *)
Lemma shorter_is_done (done rest : list item) (cur x : item) :
  bfs_inv graph from to done (cur :: rest) ->
  In x (done ++ cur :: rest) -> len x < len cur -> In x done.
Proof.
  intros Hinv Hx Hlen. apply in_app_or in Hx.
  destruct Hx as [Hx|[<-|Hx]]; [assumption | lia |].
  pose proof (inv_sorted Hinv) as Hs.
  change (cur :: rest) with ([cur] ++ rest) in Hs. rewrite app_assoc in Hs.
  assert (by_len cur x).
  { apply (StronglySorted_app_inv _ _ Hs); [|assumption].
    apply in_or_app. right. now left. }
  unfold by_len in *. lia.
Qed.

(** A walk shorter than the route of the current item arrives at an item
    already treated, whose route is not longer than the walk. *)
Lemma short_walk_is_done (done rest : list item) (cur : item) (q : list Loc) :
  bfs_inv graph from to done (cur :: rest) ->
  walk graph from q -> List.length q < len cur ->
  exists x, In x done /\ at_ x = arrival from q /\ len x <= List.length q.
Proof.
  intros Hinv. induction q as [|u q IH] using rev_ind; intros Hwalk Hlen.
  - destruct (inv_start Hinv) as (w0 & Hin & Hat & Hroute).
    exists w0. unfold len in *. rewrite Hroute. simpl in *.
    split; [|split; [assumption | lia]].
    eapply shorter_is_done; eauto. unfold len. rewrite Hroute. simpl. lia.
  - apply walk_snoc in Hwalk. destruct Hwalk as [Hwalk Hu].
    rewrite length_app in Hlen. simpl in Hlen.
    destruct IH as (x' & Hx' & Hat' & Hlen'); [assumption | lia |].
    rewrite <- Hat' in Hu.
    destruct (inv_done Hinv _ _ Hx' Hu) as (_ & x & Hx & Hat & Hle).
    exists x. rewrite arrival_snoc, length_app. simpl.
    split; [|split; [assumption | lia]].
    eapply shorter_is_done; eauto. lia.
Qed.

(** When the loop has treated the whole work list, every walk arrives at
    one of its items. *)
Lemma walk_is_done (done : list item) (q : list Loc) :
  bfs_inv graph from to done [] ->
  walk graph from q -> exists x, In x done /\ at_ x = arrival from q.
Proof.
  intros Hinv. induction q as [|u q IH] using rev_ind; intros Hwalk.
  - destruct (inv_start Hinv) as (w0 & Hin & Hat & _).
    rewrite app_nil_r in Hin. now exists w0.
  - apply walk_snoc in Hwalk. destruct Hwalk as [Hwalk Hu].
    destruct (IH Hwalk) as (x' & Hx' & Hat').
    rewrite <- Hat' in Hu.
    destruct (inv_done Hinv _ _ Hx' Hu) as (_ & x & Hx & Hat & _).
    rewrite app_nil_r in Hx. exists x. now rewrite arrival_snoc.
Qed.

(** The route returned on finding [to] next to the current item. *)
Lemma hit_is_shortest (done rest : list item) (cur : item) :
  bfs_inv graph from to done (cur :: rest) ->
  In to (neighbours graph (at_ cur)) ->
  shortest_route graph from to (route cur ++ [to]).
Proof.
  intros Hinv Hto.
  destruct (inv_sound Hinv cur) as [Hwalk Harr].
  { apply in_or_app. right. now left. }
  split; [now destruct (route cur) |].
  split; [apply walk_snoc; now rewrite Harr |].
  split; [apply arrival_snoc |].
  intros r' Hne Hwalk' Harr'.
  destruct (walk_last_step from to r' Hne Harr') as (q & ->).
  rewrite !length_app. simpl.
  destruct (Nat.lt_ge_cases (List.length q) (len cur)) as [Hlt|Hge];
    [|unfold len in Hge; lia].
  exfalso. apply walk_snoc in Hwalk'. destruct Hwalk' as [Hq Hstep].
  destruct (short_walk_is_done done rest cur q Hinv Hq Hlt) as (x & Hx & Hat & _).
  rewrite <- Hat in Hstep.
  destruct (inv_done Hinv _ _ Hx Hstep) as [Habs _]. now apply Habs.
Qed.

(** One turn of the outer loop that does not return keeps the invariant. *)
Lemma bfs_inv_step (done rest : list item) (cur : item)
  (work' : list item) :
  bfs_inv graph from to done (cur :: rest) ->
  scan_places to (route cur) (neighbours graph (at_ cur))
    (done ++ cur :: rest) = Grown work' ->
  exists new,
    work' = (done ++ [cur]) ++ rest ++ new /\
    bfs_inv graph from to (done ++ [cur]) (rest ++ new).
Proof.
  intros Hinv Hscan. apply scan_places_grown in Hscan.
  destruct Hscan as (Hto & new & -> & Hnew & Hall & _).
  assert (Hwork : (done ++ [cur]) ++ rest ++ new = (done ++ cur :: rest) ++ new).
  { now rewrite <- !app_assoc. }
  exists new. split; [now rewrite Hwork|].
  assert (Hcur : In cur (done ++ cur :: rest)).
  { apply in_or_app. right. now left. }
  assert (Hlen_new : forall x, In x new -> len x = S (len cur)).
  { intros x Hx. destruct (Hnew x Hx) as [_ Hr]. unfold len. rewrite Hr.
    rewrite length_app. simpl. lia. }
  assert (Hbound : forall x, In x ((done ++ cur :: rest) ++ new) ->
                             len x <= S (len cur)).
  { intros x Hx. apply in_app_or in Hx. destruct Hx as [Hx|Hx].
    - apply (inv_next Hinv cur rest); [reflexivity | assumption].
    - rewrite (Hlen_new x Hx). lia. }
  constructor; rewrite Hwork.
  - intros w Hw. apply in_app_or in Hw. destruct Hw as [Hw|Hw].
    + now apply (inv_sound Hinv).
    + destruct (Hnew w Hw) as [Hat Hr].
      destruct (inv_sound Hinv cur Hcur) as [Hwalk Harr].
      unfold sound. rewrite Hr. split.
      * apply walk_snoc. now rewrite Harr.
      * apply arrival_snoc.
  - destruct (inv_start Hinv) as (w0 & Hin & H0).
    exists w0. split; [|assumption]. apply in_or_app. now left.
  - intros w u Hw Hu. apply in_app_or in Hw. destruct Hw as [Hw|[<-|[]]].
    + destruct (inv_done Hinv _ _ Hw Hu) as (Hne & x & Hx & Hat & Hle).
      split; [assumption|]. exists x. split; [|tauto].
      apply in_or_app. now left.
    + split; [intros ->; contradiction|].
      specialize (Hall u Hu). apply in_map_iff in Hall.
      destruct Hall as (x & Hat & Hx). exists x. auto.
  - apply StronglySorted_app.
    + apply (inv_sorted Hinv).
    + apply StronglySorted_all. intros x y Hx Hy. unfold by_len.
      rewrite (Hlen_new x Hx), (Hlen_new y Hy). lia.
    + intros x y Hx Hy. unfold by_len. rewrite (Hlen_new y Hy).
      apply (inv_next Hinv cur rest); [reflexivity | assumption].
  - intros cur' rest' x Hnext Hx.
    assert (Hin' : In cur' (rest ++ new)) by (rewrite Hnext; now left).
    assert (len cur <= len cur').
    { apply in_app_or in Hin'. destruct Hin' as [Hin'|Hin'].
      - pose proof (inv_sorted Hinv) as Hs.
        change (cur :: rest) with ([cur] ++ rest) in Hs.
        rewrite app_assoc in Hs.
        apply (StronglySorted_app_inv _ _ Hs); [|assumption].
        apply in_or_app. right. now left.
      - rewrite (Hlen_new _ Hin'). lia. }
    specialize (Hbound x Hx). lia.
Qed.

Lemma findRoute_loop_answer (fuel : nat) :
  forall done todo,
    bfs_inv graph from to done todo ->
    answer_ok graph from to
      (findRoute_loop fuel graph to (List.length done) (done ++ todo)).
Proof.
  induction fuel as [|fuel IH]; intros done todo Hinv; simpl; [exact I|].
  rewrite nth_error_app2, Nat.sub_diag by lia.
  destruct todo as [|cur rest]; simpl.
  - intros q Hne Hwalk Harr.
    destruct (walk_last_step from to q Hne Harr) as (q' & ->).
    apply walk_snoc in Hwalk. destruct Hwalk as [Hq Hstep].
    destruct (walk_is_done done q' Hinv Hq) as (x & Hx & Hat).
    rewrite <- Hat in Hstep.
    destruct (inv_done Hinv _ _ Hx Hstep) as [Habs _]. now apply Habs.
  - destruct (get graph (key (at_ cur))) as [places|] eqn:Hget; [|exact I].
    assert (Hplaces : neighbours graph (at_ cur) = places).
    { unfold neighbours. now rewrite Hget. }
    destruct (scan_places to (route cur) places (done ++ cur :: rest))
      as [r|work'] eqn:Hscan.
    + apply scan_places_hit in Hscan. destruct Hscan as [Hto ->].
      simpl. eapply hit_is_shortest; [eassumption|]. now rewrite Hplaces.
    + rewrite <- Hplaces in Hscan.
      destruct (bfs_inv_step done rest cur work' Hinv Hscan) as (new & -> & Hinv').
      replace (S (List.length done)) with (List.length (done ++ [cur]))
        by (rewrite length_app; simpl; lia).
      now apply IH.
Qed.

Lemma findRoute_answer : answer_ok graph from to (findRoute graph from to).
Proof.
  unfold findRoute, findRoute_fuel.
  apply (findRoute_loop_answer (turns graph) []). apply bfs_inv_init.
Qed.

Lemma findRoute_fuel_answer (fuel : nat) :
  answer_ok graph from to (findRoute_fuel fuel graph from to).
Proof.
  unfold findRoute_fuel.
  apply (findRoute_loop_answer fuel []). apply bfs_inv_init.
Qed.
End Invariant.

(** ** The path finder *)

(** C3: on a built graph, from a vertex to a different location that can be
    reached, [findRoute] returns a walk that ends with [to], does not pass
    through [from], and is no longer than any walk from [from] to [to]. *)
Theorem findRoute_shortest (edges : list string) (from to : Loc) :
  is_vertex (buildGraph edges) from ->
  from <> to ->
  reachable (buildGraph edges) from to ->
  exists r,
    findRoute (buildGraph edges) from to = Return (Some r) /\
    ~ In from r /\
    (exists r0, r = r0 ++ [to]) /\
    walk (buildGraph edges) from r /\
    forall r',
      walk (buildGraph edges) from r' -> arrival from r' = to ->
      List.length r <= List.length r'.
Proof.
  intros Hfrom Hne (q & Hq & Hqto).
  assert (Hq0 : forall r', arrival from r' = to -> r' <> []).
  { intros r' Harr ->. now apply Hne. }
  pose proof (findRoute_answer (buildGraph edges) from to) as Hans.
  pose proof (findRoute_ends (buildGraph edges) from to) as Hends.
  destruct (findRoute (buildGraph edges) from to) as [[r|]|e|] eqn:Hfind;
    simpl in Hans.
  - destruct Hans as (Hr & Hwalk & Harr & Hmin).
    assert (Hmin' : forall r', walk (buildGraph edges) from r' ->
                               arrival from r' = to ->
                               List.length r <= List.length r').
    { intros r' Hw Ha. apply Hmin; auto. }
    exists r. split; [reflexivity|]. split; [|split; [|split]].
    + intros Hin. apply in_split in Hin. destruct Hin as (r1 & r2 & ->).
      apply walk_app in Hwalk. destruct Hwalk as [_ [_ Hw2]].
      rewrite arrival_app in Harr. simpl in Harr.
      specialize (Hmin' r2 Hw2 Harr). rewrite length_app in Hmin'.
      simpl in Hmin'. lia.
    + now apply walk_last_step with (a := from).
    + assumption.
    + assumption.
  - exfalso. apply (Hans q); auto.
  - exfalso. unfold findRoute in Hfind.
    apply (findRoute_fuel_no_throw (buildGraph edges) from to
             (turns (buildGraph edges)) e); auto.
    apply buildGraph_closed.
  - now contradiction Hends.
Qed.

Lemma findRoute_shortest_witness :
  exists r,
    findRoute (buildGraph ["A-B"; "B-C"]) (str "A") (str "C") =
      Return (Some r) /\
    List.length r = 2.
Proof.
  destruct (findRoute_shortest ["A-B"; "B-C"] (str "A") (str "C"))
    as (r & Hr & _).
  - vm_compute. discriminate.
  - discriminate.
  - exists [str "B"; str "C"]. vm_compute. tauto.
  - exists r. split; [exact Hr|].
    vm_compute in Hr. injection Hr as <-. reflexivity.
Defined.

(** A set of labels that contains the neighbours of its elements contains
    the end of every walk that starts in it. *)
Lemma walk_stays (graph : Graph) (inside : list Loc) :
  (forall a b, In a inside -> In b (neighbours graph a) -> In b inside) ->
  forall r a, In a inside -> walk graph a r -> In (arrival a r) inside.
Proof.
  intros Hclosed. induction r as [|b r IH]; intros a Ha Hwalk; simpl.
  - assumption.
  - destruct Hwalk as [Hb Hwalk]. apply IH; [|assumption].
    eapply Hclosed; eassumption.
Qed.

(** C6: on a graph in which every neighbour has an adjacency array, from a
    vertex to a location that cannot be reached, [findRoute] returns
    [undefined] without throwing; two more turns of the outer loop than
    there are vertices are enough for that. *)
Theorem findRoute_unreachable (graph : Graph) (from to : Loc) :
  closed graph ->
  is_vertex graph from ->
  ~ reachable graph from to ->
  findRoute graph from to = Return None /\
  forall fuel,
    List.length (keys graph) + 2 <= fuel ->
    findRoute_fuel fuel graph from to = Return None.
Proof.
  intros Hc Hfrom Hun.
  assert (Hall : forall fuel,
             findRoute_fuel fuel graph from to <> Running ->
             findRoute_fuel fuel graph from to = Return None).
  { intros fuel Hends.
    pose proof (findRoute_fuel_answer graph from to fuel) as Hans.
    pose proof (findRoute_fuel_no_throw graph from to fuel) as Hthrow.
    destruct (findRoute_fuel fuel graph from to) as [[r|]|e|]; simpl in Hans.
    - exfalso. apply Hun. destruct Hans as (_ & Hw & Ha & _).
      exists r. split; assumption.
    - reflexivity.
    - exfalso. now apply (Hthrow e).
    - now contradiction Hends. }
  split.
  - apply Hall. apply findRoute_ends.
  - intros fuel Hfuel. apply Hall. now apply findRoute_fuel_ends.
Qed.

Lemma findRoute_unreachable_witness :
  findRoute (buildGraph ["A-B"; "C-D"]) (str "A") (str "C") = Return None.
Proof.
  refine (proj1 (findRoute_unreachable (buildGraph ["A-B"; "C-D"])
                   (str "A") (str "C") _ _ _)).
  - apply buildGraph_closed.
  - vm_compute. discriminate.
  - intros (r & Hwalk & Harr).
    assert (Hin : In (arrival (str "A") r) [str "A"; str "B"]).
    { apply (walk_stays (buildGraph ["A-B"; "C-D"])); [|now left|assumption].
      intros a b [<-|[<-|[]]]; vm_compute; intros [<-|[]]; tauto. }
    rewrite Harr in Hin. destruct Hin as [H|[H|[]]]; discriminate H.
Defined.

Lemma findRoute_self_loop (graph : Graph) (a : Loc) (places : list Loc)
  (fuel : nat) :
  get graph (key a) = Some places -> In a places ->
  findRoute_fuel (S fuel) graph a a = Return (Some [a]).
Proof.
  intros Hget Hin. unfold findRoute_fuel. simpl. rewrite Hget.
  now rewrite (scan_places_found a [] places _ Hin).
Qed.

Lemma findRoute_there_and_back (graph : Graph) (a n : Loc)
  (places back : list Loc) (fuel : nat) :
  get graph (key a) = Some (n :: places) -> ~ In a (n :: places) ->
  get graph (key n) = Some back -> In a back ->
  findRoute_fuel (S (S fuel)) graph a a = Return (Some [n; a]).
Proof.
  intros Hget Hnot Hback Hin. unfold findRoute_fuel.
  assert (Hna : loc_eqb n a = false).
  { apply loc_eqb_neq. intros ->. apply Hnot. now left. }
  assert (Han : loc_eqb a n = false).
  { apply loc_eqb_neq. intros ->. apply Hnot. now left. }
  cbn [findRoute_loop nth_error at_ route]. rewrite Hget.
  cbn [scan_places existsb at_ app]. rewrite Hna, Han. cbn [orb negb].
  destruct (scan_places a [] places _) as [r|work'] eqn:Hscan.
  - apply scan_places_hit in Hscan. destruct Hscan as [Habs _].
    exfalso. apply Hnot. now right.
  - apply scan_places_grown in Hscan. destruct Hscan as (_ & new & -> & _).
    cbn [app nth_error at_ route]. rewrite Hback.
    now rewrite (scan_places_found a [n] back _ Hin).
Qed.

(** C4, as the code has it: on a graph built from well-formed edges, the
    route from a vertex to itself is not empty; it is the vertex alone when
    the vertex is its own neighbour, and otherwise goes to the first
    neighbour and back. *)
Theorem findRoute_round_trip (edges : list string) (a : string) :
  forallb well_formed edges = true ->
  is_vertex (buildGraph edges) (str a) ->
  findRoute (buildGraph edges) (str a) (str a) =
  Return (Some (if includes (neighbours (buildGraph edges) (str a)) (str a)
                then [str a]
                else [first (neighbours (buildGraph edges) (str a)); str a])).
Proof.
  intros Hwf Hv. unfold is_vertex in Hv. unfold neighbours, findRoute, turns.
  destruct (get (buildGraph edges) (key (str a))) as [places|] eqn:Hget;
    [|congruence].
  destruct (includes places (str a)) eqn:Hinc.
  - apply includes_In in Hinc.
    now apply findRoute_self_loop with (places := places).
  - apply includes_not_In in Hinc.
    destruct places as [|n places].
    { exfalso. now apply (buildGraph_nonempty edges _ _ Hget). }
    assert (Hn : In n (adj (buildGraph edges) a)).
    { unfold adj. simpl in Hget. rewrite Hget. now left. }
    destruct (buildGraph_entries_str edges Hwf a n Hn) as (b & ->).
    apply (buildGraph_In_symmetric edges a b Hwf) in Hn.
    unfold adj in Hn.
    destruct (get (buildGraph edges) b) as [back|] eqn:Hback;
      [|contradiction].
    now apply findRoute_there_and_back with (places := places) (back := back).
Qed.

Lemma findRoute_round_trip_witness :
  findRoute roadGraph (str "Post Office") (str "Post Office") =
  Return (Some [str "Alice's House"; str "Post Office"]).
Proof.
  apply (findRoute_round_trip roads "Post Office").
  - reflexivity.
  - vm_compute. discriminate.
Defined.

(** C4, as the specification has it, fails: the route from the post office
    to itself goes to Alice's house and back. *)
Lemma findRoute_same_place_not_empty :
  findRoute roadGraph (str "Post Office") (str "Post Office") <>
  Return (Some []).
Proof.
  vm_compute. discriminate.
Qed.

(** ** The goal-oriented robot *)

(** The path finder returns a route between any two places of the
    village. *)
Lemma roadGraph_routes :
  forallb
    (fun a => forallb (fun b => finds (findRoute roadGraph a b))
                (keys roadGraph))
    (keys roadGraph) = true.
Proof. vm_compute. reflexivity. Qed.

Lemma roadGraph_vertex (a : Loc) :
  is_vertex roadGraph a -> In a (keys roadGraph).
Proof.
  destruct a as [|k]; intros H.
  - exfalso. apply H. vm_compute. reflexivity.
  - exact (proj1 (get_In_keys roadGraph k) H).
Qed.

Lemma roadGraph_connected (a b : Loc) :
  is_vertex roadGraph a -> is_vertex roadGraph b ->
  exists r, findRoute roadGraph a b = Return (Some r).
Proof.
  intros Ha Hb. apply roadGraph_vertex in Ha, Hb.
  pose proof roadGraph_routes as H.
  rewrite forallb_forall in H. specialize (H a Ha).
  rewrite forallb_forall in H. specialize (H b Hb).
  destruct (findRoute roadGraph a b) as [[r|]|e|].
  - exists r. reflexivity.
  - simpl in H. congruence.
  - simpl in H. congruence.
  - simpl in H. congruence.
Qed.

(** C7: in a state of the village with a first parcel, the goal-oriented
    robot follows a route, heading for its first stop and keeping the
    others as memory; the route is the memory when that is not empty, and
    otherwise the one [findRoute] returns to the place of the first parcel
    when the robot is not there, and to its address when it is. *)
Theorem goalOrientedRobot_plan (s : VillageState.t) (memory : list Loc)
  (parcel : Parcel.t) (rest : list Parcel.t) :
  VillageState.parcels s = parcel :: rest ->
  is_vertex roadGraph (VillageState.place s) ->
  is_vertex roadGraph (Parcel.place parcel) ->
  is_vertex roadGraph (Parcel.address parcel) ->
  exists route,
    (memory <> [] -> route = memory) /\
    (memory = [] -> Parcel.place parcel <> VillageState.place s ->
     findRoute roadGraph (VillageState.place s) (Parcel.place parcel) =
       Return (Some route)) /\
    (memory = [] -> Parcel.place parcel = VillageState.place s ->
     findRoute roadGraph (VillageState.place s) (Parcel.address parcel) =
       Return (Some route)) /\
    goalOrientedRobot roadGraph s memory =
      Return {| direction := first route; memory := Some (slice1 route) |}.
Proof.
  intros Hparcels Hs Hplace Haddress. unfold goalOrientedRobot.
  rewrite Hparcels.
  destruct memory as [|x xs]; cbn [List.length Nat.eqb].
  - destruct (loc_eqb_spec (Parcel.place parcel) (VillageState.place s))
      as [E|E]; cbn [negb].
    + destruct (roadGraph_connected _ _ Hs Haddress) as (r & Hr).
      exists r. rewrite Hr. cbn [bind]. repeat split; congruence.
    + destruct (roadGraph_connected _ _ Hs Hplace) as (r & Hr).
      exists r. rewrite Hr. cbn [bind]. repeat split; congruence.
  - exists (x :: xs). cbn [bind]. repeat split; congruence.
Qed.

Lemma goalOrientedRobot_plan_witness :
  goalOrientedRobot roadGraph
    (VillageState.make (str "Post Office")
       [Parcel.make (str "Shop") (str "Cabin")]) [] =
  Return {| direction := str "Marketplace"; memory := Some [str "Shop"] |}.
Proof.
  destruct (goalOrientedRobot_plan
              (VillageState.make (str "Post Office")
                 [Parcel.make (str "Shop") (str "Cabin")])
              [] (Parcel.make (str "Shop") (str "Cabin")) [])
    as (route & _ & Hroute & _ & Hrobot).
  - reflexivity.
  - vm_compute. discriminate.
  - vm_compute. discriminate.
  - vm_compute. discriminate.
  - rewrite Hrobot.
    assert (E : Return (Some route) =
                Return (Some [str "Marketplace"; str "Shop"])).
    { rewrite <- Hroute; [vm_compute; reflexivity | reflexivity |].
      simpl. discriminate. }
    injection E as ->. reflexivity.
Defined.

(** * Further properties *)

(** ** Edge strings *)

Lemma split_not_nil (r : string) : split r <> [].
Proof.
  destruct r as [|c r]; simpl; [discriminate|].
  destruct (Ascii.eqb c "-"); [discriminate|].
  destruct (split r); discriminate.
Qed.

Lemma split_no_dash (a : string) : no_dash a = true -> split a = [a].
Proof.
  induction a as [|c a IH]; simpl; [reflexivity|].
  intros H. apply andb_true_iff in H. destruct H as [Hc Ha].
  apply negb_true_iff in Hc. rewrite Hc, (IH Ha). reflexivity.
Qed.

Lemma split_app_dash (a b : string) :
  no_dash a = true -> split (a ++ "-" ++ b) = a :: split b.
Proof.
  induction a as [|c a IH]; simpl; [reflexivity|].
  intros H. apply andb_true_iff in H. destruct H as [Hc Ha].
  apply negb_true_iff in Hc. rewrite Hc. simpl in IH. rewrite (IH Ha).
  reflexivity.
Qed.

(** X1: An edge string is read up to its second separator: what comes before
    the first one is [from], what comes between the two is [to], and the
    rest is dropped; without a separator [to] is [undefined]. *)
Theorem ends_parse (a b : string) :
  no_dash a = true -> no_dash b = true ->
  ends a = (str a, undefined) /\
  ends (a ++ "-" ++ b) = (str a, str b) /\
  forall rest, ends (a ++ "-" ++ b ++ "-" ++ rest) = (str a, str b).
Proof.
  intros Ha Hb. unfold ends. split; [|split].
  - now rewrite (split_no_dash a Ha).
  - now rewrite (split_app_dash a b Ha), (split_no_dash b Hb).
  - intros rest.
    rewrite (split_app_dash a _ Ha), (split_app_dash b rest Hb).
    reflexivity.
Qed.

Lemma ends_parse_witness :
  ends "Shop-Town Hall" = (str "Shop", str "Town Hall") /\
  ends "Shop-Town Hall-Farm" = (str "Shop", str "Town Hall").
Proof.
  destruct (ends_parse "Shop" "Town Hall") as (_ & H2 & H3);
    [reflexivity | reflexivity |].
  split; [exact H2 | exact (H3 "Farm")].
Defined.

(** X2: Joining the pieces of [split] with the separator gives the string
    back, and no piece holds a separator. *)
Theorem split_join (r : string) :
  String.concat "-" (split r) = r /\
  forallb no_dash (split r) = true.
Proof.
  induction r as [|c r [IHj IHd]]; simpl; [split; reflexivity|].
  destruct (Ascii.eqb_spec c "-") as [->|Hc].
  - split.
    + simpl. pose proof (split_not_nil r) as Hne.
      destruct (split r) as [|p ps]; [congruence|]. now rewrite IHj.
    + simpl. assumption.
  - pose proof (split_not_nil r) as Hne.
    destruct (split r) as [|p ps]; [congruence|]. split.
    + rewrite <- IHj. destruct ps; reflexivity.
    + simpl in *. apply andb_true_iff in IHd. destruct IHd as [Hp Hps].
      rewrite Hp, Hps. apply Ascii.eqb_neq in Hc. now rewrite Hc.
Qed.

(** ** More on the graph builder *)

Lemma adj_add_road (graph : Graph) (r k : string) :
  adj (add_road graph r) k = adj graph k ++ mentions k r.
Proof.
  unfold add_road, mentions. destruct (ends r) as [from to].
  rewrite !adj_addEdge.
  destruct (String.eqb (key to) k), (String.eqb (key from) k);
    rewrite <- ?app_assoc, ?app_nil_r; reflexivity.
Qed.

Lemma adj_fold_add_road (edges : list string) (graph : Graph) (k : string) :
  adj (fold_left add_road edges graph) k =
  adj graph k ++ flat_map (mentions k) edges.
Proof.
  revert graph. induction edges as [|r edges IH]; intros graph; simpl.
  - now rewrite app_nil_r.
  - now rewrite IH, adj_add_road, <- app_assoc.
Qed.

Lemma adj_buildGraph (edges : list string) (k : string) :
  adj (buildGraph edges) k = flat_map (mentions k) edges.
Proof.
  rewrite buildGraph_fold. apply adj_fold_add_road.
Qed.

Lemma count_flat_map (f : string -> list Loc) (x : Loc) (l : list string) :
  count_occ Loc_eq_dec (flat_map f l) x =
  list_sum (map (fun r => count_occ Loc_eq_dec (f r) x) l).
Proof.
  induction l as [|r l IH]; simpl; [reflexivity|].
  now rewrite count_occ_app, IH.
Qed.

(** What a well-formed road adds of [b] to the array of [a], and of [a] to
    the array of [b]. *)
Lemma count_mentions (a b r : string) :
  well_formed r = true ->
  count_occ Loc_eq_dec (mentions a r) (str b) = declares a b r /\
  count_occ Loc_eq_dec (mentions b r) (str a) = declares a b r.
Proof.
  intros Hr. destruct (well_formed_ends r Hr) as (x & y & E).
  unfold mentions, declares. rewrite E. simpl key. simpl loc_eqb.
  rewrite !count_occ_app.
  destruct (String.eqb_spec x a), (String.eqb_spec y a),
    (String.eqb_spec x b), (String.eqb_spec y b); subst;
    cbn [count_occ andb];
    repeat match goal with
      | |- context [Loc_eq_dec ?u ?v] => destruct (Loc_eq_dec u v)
      end; try congruence; split; reflexivity.
Qed.

Lemma list_sum_ext (f g : string -> nat) (l : list string) :
  (forall r, In r l -> f r = g r) ->
  list_sum (map f l) = list_sum (map g l).
Proof.
  induction l as [|r l IH]; intros H; simpl; [reflexivity|].
  rewrite (H r) by now left. rewrite IH; [reflexivity|].
  intros r' Hr'. apply H. now right.
Qed.

(** C5: for well-formed edge strings, [b] occurs in the adjacency array of
    [a] exactly as many times as the edge list declares a road between [a]
    and [b], one way or the other, and [a] occurs as many times in the
    array of [b]: the graph is symmetric with multiplicity, and a road
    declared twice is listed twice in both arrays. *)
Theorem buildGraph_symmetric (edges : list string) :
  forallb well_formed edges = true ->
  forall a b : string,
    count_occ Loc_eq_dec (neighbours (buildGraph edges) (str a)) (str b) =
      declarations edges a b /\
    count_occ Loc_eq_dec (neighbours (buildGraph edges) (str b)) (str a) =
      declarations edges a b /\
    count_occ Loc_eq_dec (neighbours (buildGraph edges) (str a)) (str b) =
    count_occ Loc_eq_dec (neighbours (buildGraph edges) (str b)) (str a).
Proof.
  intros Hwf a b. rewrite !neighbours_adj. simpl key.
  rewrite !adj_buildGraph, !count_flat_map. unfold declarations.
  rewrite forallb_forall in Hwf.
  assert (Hab : list_sum
                  (map (fun r => count_occ Loc_eq_dec (mentions a r) (str b))
                     edges) =
                list_sum (map (declares a b) edges)).
  { apply list_sum_ext. intros r Hr.
    apply (proj1 (count_mentions a b r (Hwf r Hr))). }
  assert (Hba : list_sum
                  (map (fun r => count_occ Loc_eq_dec (mentions b r) (str a))
                     edges) =
                list_sum (map (declares a b) edges)).
  { apply list_sum_ext. intros r Hr.
    apply (proj2 (count_mentions a b r (Hwf r Hr))). }
  rewrite Hab, Hba. auto.
Qed.

Lemma buildGraph_symmetric_witness :
  forallb well_formed ["A-B"; "B-C"; "B-A"] = true /\
  count_occ Loc_eq_dec
    (neighbours (buildGraph ["A-B"; "B-C"; "B-A"]) (str "A")) (str "B") = 2 /\
  count_occ Loc_eq_dec
    (neighbours (buildGraph ["A-B"; "B-C"; "B-A"]) (str "B")) (str "A") = 2.
Proof.
  split; [reflexivity|].
  destruct (buildGraph_symmetric ["A-B"; "B-C"; "B-A"] eq_refl "A" "B")
    as (Hab & Hba & _).
  split; [exact Hab | exact Hba].
Defined.

(** X3: The adjacency array of a label lists, road after road in the order of
    the edge list, the other end of each road that has the label at one
    end; a road declared twice is listed twice, and a road from a label to
    itself twice at each declaration. *)
Theorem buildGraph_adjacency (edges : list string) (a : Loc) :
  neighbours (buildGraph edges) a = flat_map (mentions (key a)) edges.
Proof.
  rewrite neighbours_adj. apply adj_buildGraph.
Qed.

Lemma mentions_not_nil (k r : string) :
  mentions k r <> [] <->
  key (fst (ends r)) = k \/ key (snd (ends r)) = k.
Proof.
  unfold mentions. destruct (ends r) as [from to]. simpl.
  destruct (String.eqb_spec (key from) k), (String.eqb_spec (key to) k);
    simpl; split; try tauto; try discriminate.
Qed.

Lemma flat_map_not_nil (A B : Type) (f : A -> list B) (l : list A) :
  flat_map f l <> [] <-> exists x, In x l /\ f x <> [].
Proof.
  induction l as [|x l IH]; simpl.
  - split; [congruence | intros (x & [] & _)].
  - split.
    + intros H. destruct (f x) as [|y ys] eqn:E.
      * simpl in H. apply IH in H. destruct H as (z & Hz & Hfz).
        exists z. auto.
      * exists x. split; [now left | congruence].
    + intros (z & [<-|Hz] & Hfz).
      * destruct (f x); [congruence | discriminate].
      * intros H. apply app_eq_nil in H. destruct H as [_ H].
        revert H. apply IH. now exists z.
Qed.

Lemma get_buildGraph (edges : list string) (k : string) :
  get (buildGraph edges) k <> None <-> adj (buildGraph edges) k <> [].
Proof.
  unfold adj. destruct (get (buildGraph edges) k) as [l|] eqn:Hget.
  - split; [|discriminate]. intros _.
    eapply buildGraph_nonempty; eassumption.
  - tauto.
Qed.

(** X4: The vertices of a built graph are the labels that stand at an end of
    some road of the edge list. *)
Theorem buildGraph_vertices (edges : list string) (a : Loc) :
  is_vertex (buildGraph edges) a <->
  exists r,
    In r edges /\
    (key (fst (ends r)) = key a \/ key (snd (ends r)) = key a).
Proof.
  unfold is_vertex. rewrite get_buildGraph, adj_buildGraph, flat_map_not_nil.
  split; intros (r & Hr & H); exists r; (split; [assumption|]);
    now apply mentions_not_nil.
Qed.

Lemma keys_set (graph : Graph) (k : string) (l : list Loc) :
  NoDup (keys graph) -> NoDup (keys (set graph k l)).
Proof.
  induction graph as [|[k' l'] rest IH]; simpl; intros Hnd.
  - constructor; [tauto | constructor].
  - destruct (String.eqb_spec k' k) as [->|Hne]; [assumption|].
    change (NoDup (str k' :: keys (set rest k l))).
    change (NoDup (str k' :: keys rest)) in Hnd.
    apply NoDup_cons_iff in Hnd. destruct Hnd as [Hnot Hnd].
    constructor; [|now apply IH].
    intros Hin. apply Hnot. apply get_In_keys. apply get_In_keys in Hin.
    rewrite get_set_other in Hin by congruence. assumption.
Qed.

Lemma keys_addEdge (graph : Graph) (from to : Loc) :
  NoDup (keys graph) -> NoDup (keys (addEdge graph from to)).
Proof.
  unfold addEdge. destruct (get graph (key from)); apply keys_set.
Qed.

Lemma keys_buildGraph (edges : list string) :
  NoDup (keys (buildGraph edges)).
Proof.
  apply buildGraph_ind.
  - constructor.
  - intros graph from to H. now apply keys_addEdge, keys_addEdge.
Qed.

(** X5: [Object.keys] of a built graph lists no label twice, however many
    roads mention it. *)
Theorem buildGraph_keys_NoDup (edges : list string) :
  NoDup (keys (buildGraph edges)).
Proof.
  pose proof (keys_buildGraph edges) as H. exact H.
Qed.

(** X6: Every neighbour listed in a built graph is a vertex of the graph: no
    road leads to a label without an adjacency array. *)
Theorem buildGraph_no_dangling (edges : list string) (a b : Loc) :
  In b (neighbours (buildGraph edges) a) -> is_vertex (buildGraph edges) b.
Proof.
  unfold neighbours, is_vertex.
  destruct (get (buildGraph edges) (key a)) as [l|] eqn:Hget; [|contradiction].
  intros Hin. eapply buildGraph_closed; eassumption.
Qed.

Lemma buildGraph_no_dangling_witness :
  is_vertex roadGraph (str "Marketplace").
Proof.
  apply (buildGraph_no_dangling roads (str "Post Office") (str "Marketplace")).
  vm_compute. tauto.
Defined.

(** ** More on the village state *)

Lemma move_cases (graph : Graph) (s : VillageState.t) (d : Loc) :
  is_vertex graph (VillageState.place s) ->
  VillageState.move graph s d =
  Return (if includes (neighbours graph (VillageState.place s)) d
          then moved s d else s).
Proof.
  unfold is_vertex, neighbours, VillageState.move, moved.
  destruct (get graph (key (VillageState.place s))) as [l|]; [|congruence].
  intros _. now destruct (includes l d).
Qed.

Lemma carry_ends (here d : Loc) (p : Parcel.t) :
  Parcel.address (VillageState.carry here d p) = Parcel.address p /\
  (Parcel.place (VillageState.carry here d p) = Parcel.place p \/
   Parcel.place (VillageState.carry here d p) = d).
Proof.
  unfold VillageState.carry.
  destruct (negb (loc_eqb (Parcel.place p) here)); simpl; auto.
Qed.

Lemma moved_on_graph (graph : Graph) (s : VillageState.t) (d : Loc) :
  is_vertex graph d -> on_graph graph s -> on_graph graph (moved s d).
Proof.
  intros Hd [_ Hps]. split; [assumption|]. simpl.
  intros q Hq. apply filter_In in Hq. destruct Hq as [Hq _].
  apply in_map_iff in Hq. destruct Hq as (p & <- & Hp).
  destruct (Hps p Hp) as [Hplace Haddr].
  destruct (carry_ends (VillageState.place s) d p) as [-> [-> | ->]]; auto.
Qed.

(** X8: On a graph without dangling roads, [move] never throws from a state
    that lies on the graph, whatever the destination, and the state it
    returns lies on the graph again. *)
Theorem move_keeps_on_graph (graph : Graph) (s : VillageState.t) (d : Loc) :
  closed graph -> on_graph graph s ->
  exists s', VillageState.move graph s d = Return s' /\ on_graph graph s'.
Proof.
  intros Hc Hs. pose proof Hs as [Hplace _].
  rewrite (move_cases graph s d Hplace).
  eexists. split; [reflexivity|].
  destruct (includes _ d) eqn:Hinc; [|assumption].
  apply includes_In in Hinc. apply moved_on_graph; [|assumption].
  unfold neighbours in Hinc. unfold is_vertex.
  destruct (get graph (key (VillageState.place s))) as [l|] eqn:Hget;
    [|contradiction].
  eapply Hc; eassumption.
Qed.

Lemma move_keeps_on_graph_witness :
  exists s',
    VillageState.move roadGraph
      (VillageState.make (str "Shop") [Parcel.make (str "Shop") (str "Farm")])
      (str "Town Hall") = Return s' /\
    on_graph roadGraph s'.
Proof.
  apply (move_keeps_on_graph roadGraph).
  - apply buildGraph_closed.
  - split; [vm_compute; discriminate|].
    intros p [<-|[]]; split; vm_compute; discriminate.
Defined.

(** X9: [move] treats the parcels one by one: moving with two lists of parcels
    put end to end gives the results of moving with each list, put end to
    end. *)
Theorem move_app (graph : Graph) (here d : Loc) (ps qs : list Parcel.t)
  (s1 s2 : VillageState.t) :
  VillageState.move graph (VillageState.make here ps) d = Return s1 ->
  VillageState.move graph (VillageState.make here qs) d = Return s2 ->
  VillageState.move graph (VillageState.make here (ps ++ qs)) d =
  Return (VillageState.make (VillageState.place s1)
            (VillageState.parcels s1 ++ VillageState.parcels s2)).
Proof.
  unfold VillageState.move. simpl.
  destruct (get graph (key here)) as [l|]; [|discriminate].
  destruct (negb (includes l d)); intros [= <-] [= <-]; simpl.
  - reflexivity.
  - now rewrite map_app, filter_app.
Qed.

Lemma move_app_witness :
  VillageState.move roadGraph
    (VillageState.make (str "Farm")
       ([Parcel.make (str "Farm") (str "Shop")] ++
        [Parcel.make (str "Farm") (str "Marketplace")]))
    (str "Marketplace") =
  Return (VillageState.make (str "Marketplace")
            ([Parcel.make (str "Marketplace") (str "Shop")] ++ [])).
Proof.
  apply (move_app roadGraph (str "Farm") (str "Marketplace")
           [Parcel.make (str "Farm") (str "Shop")]
           [Parcel.make (str "Farm") (str "Marketplace")]
           (VillageState.make (str "Marketplace")
              [Parcel.make (str "Marketplace") (str "Shop")])
           (VillageState.make (str "Marketplace") []));
    vm_compute; reflexivity.
Defined.

(** ** More on scenarios *)

Lemma pick_place_returns (graph : Graph) (address place : Loc)
  (draws rest : list draw) :
  VillageState.pick_place graph address draws = Return (place, rest) ->
  place <> address /\ exists r, place = randomPick (keys graph) r.
Proof.
  induction draws as [|r draws IH]; simpl; [discriminate|].
  destruct (loc_eqb_spec (randomPick (keys graph) r) address) as [E|E].
  - exact IH.
  - intros [= <- <-]. split; [assumption | now exists r].
Qed.

Lemma random_parcels_returns (graph : Graph) (count : nat) :
  forall draws ps,
    VillageState.random_parcels graph count draws = Return ps ->
    List.length ps = count /\
    forall p, In p ps ->
              Parcel.place p <> Parcel.address p /\
              In (Parcel.place p) (keys graph) /\
              In (Parcel.address p) (keys graph).
Proof.
  induction count as [|count IH]; intros draws ps; simpl.
  - intros [= <-]. split; [reflexivity | intros p []].
  - destruct draws as [|r draws]; [discriminate|].
    destruct (VillageState.pick_place graph (randomPick (keys graph) r) draws)
      as [[place rest]| |] eqn:Hpick; simpl; try discriminate.
    destruct (VillageState.random_parcels graph count rest)
      as [ps'| |] eqn:Hrest; simpl; try discriminate.
    intros [= <-]. destruct (IH _ _ Hrest) as [Hlen Hall].
    split; [simpl; now rewrite Hlen|].
    intros p [<-|Hp]; [|now apply Hall].
    apply pick_place_returns in Hpick. destruct Hpick as [Hne (r' & ->)].
    simpl. split; [assumption|].
    assert (Hkeys : keys graph <> []).
    { intros E. apply Hne. rewrite E. unfold randomPick. simpl.
      now destruct (scaled_floor r' 0), (scaled_floor r 0). }
    split; now apply randomPick_In.
Qed.

(** X10: When [random] returns, the robot is at the post office, there are as
    many parcels as asked for, and every parcel goes from one label of the
    graph to a different one. *)
Theorem random_scenario (graph : Graph) (parcelCount : nat)
  (draws : list draw) (s : VillageState.t) :
  VillageState.random graph parcelCount draws = Return s ->
  VillageState.place s = str "Post Office" /\
  List.length (VillageState.parcels s) = parcelCount /\
  forall p, In p (VillageState.parcels s) ->
            Parcel.place p <> Parcel.address p /\
            In (Parcel.place p) (keys graph) /\
            In (Parcel.address p) (keys graph).
Proof.
  unfold VillageState.random.
  destruct (VillageState.random_parcels graph parcelCount draws)
    as [ps| |] eqn:Hps; simpl; try discriminate.
  intros [= <-]. simpl. split; [reflexivity|].
  eapply random_parcels_returns; eassumption.
Qed.

Lemma random_scenario_witness :
  exists s,
    VillageState.random roadGraph 1
      [Build_draw 1 3; Build_draw 1 3; Build_draw 0 0] = Return s /\
    List.length (VillageState.parcels s) = 1.
Proof.
  eexists. split; [vm_compute; reflexivity|].
  refine (proj1 (proj2 (random_scenario roadGraph 1
                          [Build_draw 1 3; Build_draw 1 3; Build_draw 0 0]
                          _ _))).
  vm_compute. reflexivity.
Defined.

(** Draws that make the loop of [random] pick the second key for the
    address and the first one for the place. *)
Lemma random_parcels_can_return (graph : Graph) (a b : Loc)
  (others : list Loc) (count : nat) :
  keys graph = a :: b :: others -> a <> b ->
  exists draws ps, VillageState.random_parcels graph count draws = Return ps.
Proof.
  intros Hkeys Hab.
  set (second := {| num := 1; slack := List.length others |}).
  set (first_ := {| num := 0; slack := 0 |}).
  assert (Hsecond : randomPick (keys graph) second = b).
  { unfold randomPick, scaled_floor. rewrite Hkeys. simpl num. simpl slack.
    simpl List.length.
    replace (1 * S (S (List.length others)))
      with (1 * (1 + List.length others + 1)) by lia.
    rewrite Nat.div_mul by lia. reflexivity. }
  assert (Hfirst : randomPick (keys graph) first_ = a).
  { unfold randomPick, scaled_floor. rewrite Hkeys. reflexivity. }
  induction count as [|count (draws & ps & IH)].
  - exists [], []. reflexivity.
  - exists (second :: first_ :: draws). eexists.
    cbn [VillageState.random_parcels VillageState.pick_place].
    rewrite Hsecond, Hfirst.
    destruct (loc_eqb_spec a b) as [E|_]; [contradiction|].
    cbn [bind snd fst]. rewrite IH. reflexivity.
Qed.

(** X11: On a built graph, [random] can produce a scenario with at least one
    parcel exactly when the graph has at least two vertices. *)
Theorem random_returns_iff (edges : list string) (count : nat) :
  (exists draws s,
      VillageState.random (buildGraph edges) (S count) draws = Return s) <->
  2 <= List.length (keys (buildGraph edges)).
Proof.
  split.
  - intros (draws & s & H).
    destruct (Nat.lt_ge_cases (List.length (keys (buildGraph edges))) 2)
      as [Hsmall|]; [|assumption].
    unfold VillageState.random in H.
    rewrite random_parcels_small in H by assumption. discriminate.
  - intros Hlen. pose proof (keys_buildGraph edges) as Hnd.
    destruct (keys (buildGraph edges)) as [|a [|b others]] eqn:Hkeys;
      simpl in Hlen; try lia.
    assert (Hab : a <> b).
    { intros ->. apply NoDup_cons_iff in Hnd. apply (proj1 Hnd). now left. }
    destruct (random_parcels_can_return (buildGraph edges) a b others
                (S count) Hkeys Hab) as (draws & ps & H).
    exists draws. eexists. unfold VillageState.random. rewrite H. reflexivity.
Qed.

(** ** More on the path finder *)

(** X12: On any graph and for any two locations, equal or not, [findRoute]
    does not run forever; a route it returns has at least one stop, is a
    walk from [from] that ends at [to], and no walk with at least one stop
    does so in fewer stops; when it returns [undefined], no walk with at
    least one stop leads from [from] to [to]. *)
Theorem findRoute_any_graph (graph : Graph) (from to : Loc) :
  findRoute graph from to <> Running /\
  (forall r,
      findRoute graph from to = Return (Some r) ->
      r <> [] /\ walk graph from r /\ arrival from r = to /\
      forall r', r' <> [] -> walk graph from r' -> arrival from r' = to ->
                 List.length r <= List.length r') /\
  (findRoute graph from to = Return None ->
   forall q, q <> [] -> walk graph from q -> arrival from q <> to).
Proof.
  pose proof (findRoute_answer graph from to) as Hans.
  split; [apply findRoute_ends|]. split.
  - intros r E. rewrite E in Hans. exact Hans.
  - intros E. rewrite E in Hans. exact Hans.
Qed.

Lemma NoDup_no_repeat (A : Type) (l : list A) :
  (forall l1 x l2, l = l1 ++ x :: l2 -> ~ In x l2) -> NoDup l.
Proof.
  induction l as [|a l IH]; intros H; constructor.
  - apply (H [] a l). reflexivity.
  - apply IH. intros l1 x l2 ->. apply (H (a :: l1) x l2). reflexivity.
Qed.

(** A shortest route does not pass twice through the same place. *)
Lemma shortest_route_NoDup (graph : Graph) (from to : Loc) (r : list Loc) :
  shortest_route graph from to r -> NoDup r.
Proof.
  intros (_ & Hwalk & Harr & Hmin). apply NoDup_no_repeat.
  intros r1 x r2 -> Hin. apply in_split in Hin.
  destruct Hin as (r3 & r4 & ->).
  apply walk_app in Hwalk. destruct Hwalk as [Hw1 [Hx Hw2]].
  apply walk_app in Hw2. destruct Hw2 as [_ [_ Hw4]].
  rewrite arrival_app in Harr. simpl in Harr.
  rewrite arrival_app in Harr. simpl in Harr.
  specialize (Hmin (r1 ++ x :: r4)).
  rewrite !length_app in Hmin. simpl in Hmin.
  rewrite length_app in Hmin. simpl in Hmin.
  assert (List.length r1 + S (List.length r3 + S (List.length r4)) <=
          List.length r1 + S (List.length r4)); [|lia].
  apply Hmin.
  - now destruct r1.
  - apply walk_app. simpl. auto.
  - rewrite arrival_app. simpl. assumption.
Qed.

(** X13: On any graph, a route that [findRoute] returns visits no place
    twice. *)
Theorem findRoute_simple (graph : Graph) (from to : Loc) (r : list Loc) :
  findRoute graph from to = Return (Some r) -> NoDup r.
Proof.
  intros E. pose proof (findRoute_answer graph from to) as Hans.
  rewrite E in Hans. eapply shortest_route_NoDup. exact Hans.
Qed.

Lemma findRoute_simple_witness :
  NoDup [str "Marketplace"; str "Farm"; str "Grete's House";
         str "Ernie's House"].
Proof.
  apply (findRoute_simple roadGraph (str "Post Office") (str "Ernie's House")).
  vm_compute. reflexivity.
Defined.

Lemma In_neighbours (graph : Graph) (a b : Loc) :
  In b (neighbours graph a) ->
  exists l, get graph (key a) = Some l /\ In b l.
Proof.
  unfold neighbours. destruct (get graph (key a)) as [l|]; [|contradiction].
  intros H. now exists l.
Qed.

(** On a graph built from well-formed edges a walk can be walked back. *)
Lemma walk_back (edges : list string) :
  forallb well_formed edges = true ->
  forall r a,
    walk (buildGraph edges) (str a) r ->
    exists back,
      walk (buildGraph edges) (arrival (str a) r) back /\
      arrival (arrival (str a) r) back = str a /\
      List.length back = List.length r.
Proof.
  intros Hwf. induction r as [|x r IH]; intros a Hwalk.
  - exists []. simpl. auto.
  - destruct Hwalk as [Hx Hwalk]. rewrite neighbours_adj in Hx. simpl in Hx.
    destruct (buildGraph_entries_str edges Hwf a x Hx) as (b & ->).
    destruct (IH b Hwalk) as (back & Hback & Harr & Hlen).
    exists (back ++ [str a]). simpl arrival. split; [|split].
    + apply walk_snoc. split; [assumption|]. rewrite Harr.
      rewrite neighbours_adj. simpl.
      now apply buildGraph_In_symmetric.
    + apply arrival_snoc.
    + rewrite length_app. simpl. lia.
Qed.

(** X14: On a graph built from well-formed edges, when there is a route from a
    label to another there is one back, with as many stops. *)
Theorem findRoute_there_and_back_again (edges : list string) (a b : string)
  (r : list Loc) :
  forallb well_formed edges = true ->
  findRoute (buildGraph edges) (str a) (str b) = Return (Some r) ->
  exists r',
    findRoute (buildGraph edges) (str b) (str a) = Return (Some r') /\
    List.length r' = List.length r.
Proof.
  intros Hwf E.
  pose proof (findRoute_answer (buildGraph edges) (str a) (str b)) as Hab.
  rewrite E in Hab. destruct Hab as (Hne & Hwalk & Harr & Hmin).
  destruct (walk_back edges Hwf r a Hwalk) as (back & Hback & Hbarr & Hblen).
  rewrite Harr in Hback, Hbarr.
  assert (Hbne : back <> []).
  { intros ->. destruct r; [congruence | discriminate]. }
  assert (Hb : is_vertex (buildGraph edges) (str b)).
  { destruct (walk_last_step (str a) (str b) r Hne Harr) as (q & ->).
    apply walk_snoc in Hwalk. destruct Hwalk as [_ Hstep].
    apply In_neighbours in Hstep. destruct Hstep as (l & Hget & Hin).
    eapply buildGraph_closed; eassumption. }
  pose proof (findRoute_answer (buildGraph edges) (str b) (str a)) as Hba.
  pose proof (findRoute_ends (buildGraph edges) (str b) (str a)) as Hends.
  destruct (findRoute (buildGraph edges) (str b) (str a))
    as [[r'|]|e|] eqn:E'; simpl in Hba.
  - exists r'. split; [reflexivity|].
    destruct Hba as (Hne' & Hwalk' & Harr' & Hmin').
    destruct (walk_back edges Hwf r' b Hwalk') as (back' & Hback' & Hbarr' & Hblen').
    rewrite Harr' in Hback', Hbarr'.
    assert (back' <> []).
    { intros ->. destruct r'; [congruence | discriminate]. }
    specialize (Hmin back'). specialize (Hmin' back). 
    assert (List.length r <= List.length back') by auto.
    assert (List.length r' <= List.length back) by auto.
    lia.
  - exfalso. now apply (Hba back).
  - exfalso. unfold findRoute in E'.
    apply (findRoute_fuel_no_throw (buildGraph edges) (str b) (str a)
             (turns (buildGraph edges)) e); auto.
    apply buildGraph_closed.
  - now contradiction Hends.
Qed.

Lemma findRoute_there_and_back_again_witness :
  exists r',
    findRoute roadGraph (str "Cabin") (str "Farm") = Return (Some r') /\
    List.length r' = 4.
Proof.
  apply (findRoute_there_and_back_again roads "Farm" "Cabin"
           [str "Marketplace"; str "Post Office"; str "Alice's House";
            str "Cabin"]).
  - reflexivity.
  - vm_compute. reflexivity.
Defined.

(** ** More on the goal-oriented robot *)

(** X16: On any graph, when the goal-oriented robot returns from a call without
    memory, it heads for a neighbour of the place of the state and the
    memory it returns is a walk from that neighbour. *)
Theorem goalOrientedRobot_first_step (graph : Graph) (s : VillageState.t)
  (a : action) :
  goalOrientedRobot graph s [] = Return a ->
  In (direction a) (neighbours graph (VillageState.place s)) /\
  exists m, memory a = Some m /\ walk graph (direction a) m.
Proof.
  unfold goalOrientedRobot. cbn [List.length Nat.eqb].
  destruct (VillageState.parcels s) as [|parcel rest]; [discriminate|].
  set (target := if negb (loc_eqb (Parcel.place parcel) (VillageState.place s))
                 then Parcel.place parcel else Parcel.address parcel).
  assert (Hcall :
    (if negb (loc_eqb (Parcel.place parcel) (VillageState.place s))
     then findRoute graph (VillageState.place s) (Parcel.place parcel)
     else findRoute graph (VillageState.place s) (Parcel.address parcel)) =
    findRoute graph (VillageState.place s) target).
  { unfold target. now destruct (negb _). }
  rewrite Hcall.
  pose proof (findRoute_answer graph (VillageState.place s) target) as Hans.
  destruct (findRoute graph (VillageState.place s) target) as [[r|]|e|];
    cbn [bind]; try discriminate.
  intros [= <-]. simpl. destruct Hans as (Hne & Hwalk & _).
  destruct r as [|d m]; [congruence|]. simpl in *.
  destruct Hwalk as [Hd Hm]. split; [assumption|]. now exists m.
Qed.

Lemma goalOrientedRobot_first_step_witness :
  In (str "Marketplace") (neighbours roadGraph (str "Post Office")).
Proof.
  apply (goalOrientedRobot_first_step roadGraph
           (VillageState.make (str "Post Office")
              [Parcel.make (str "Shop") (str "Cabin")])
           {| direction := str "Marketplace"; memory := Some [str "Shop"] |}).
  vm_compute. reflexivity.
Defined.

(** ** Travelling along a route *)

Lemma walkb_walk (graph : Graph) (r : list Loc) :
  forall a, walkb graph a r = true -> walk graph a r.
Proof.
  induction r as [|b r IH]; intros a; simpl; [trivial|].
  intros H. apply andb_true_iff in H. destruct H as [Hb Hr].
  split; [now apply includes_In | now apply IH].
Qed.

Lemma travel_cons (s : VillageState.t) (d : Loc) (r : list Loc) :
  travel s (d :: r) = travel (moved s d) r.
Proof. reflexivity. Qed.

Lemma travel_app (s : VillageState.t) (r1 r2 : list Loc) :
  travel s (r1 ++ r2) = travel (travel s r1) r2.
Proof. apply fold_left_app. Qed.

Lemma travel_place (r : list Loc) :
  forall s, VillageState.place (travel s r) = arrival (VillageState.place s) r.
Proof.
  induction r as [|d r IH]; intros s; [reflexivity|].
  rewrite travel_cons, IH. reflexivity.
Qed.

Lemma moved_parcels (s : VillageState.t) (d : Loc) :
  VillageState.parcels (moved s d) =
  flat_map (fun p => survivors (fate1 (VillageState.place s) d p))
    (VillageState.parcels s).
Proof.
  unfold moved. simpl. induction (VillageState.parcels s) as [|p ps IH];
    simpl; [reflexivity|].
  unfold fate1 at 1.
  destruct (VillageState.undelivered _); simpl; now rewrite IH.
Qed.

Lemma flat_map_survivors (f : Parcel.t -> option Parcel.t)
  (g : Parcel.t -> list Parcel.t) (ps : list Parcel.t) :
  flat_map g (flat_map (fun p => survivors (f p)) ps) =
  flat_map (fun p => match f p with None => [] | Some p' => g p' end) ps.
Proof.
  induction ps as [|p ps IH]; simpl; [reflexivity|].
  rewrite flat_map_app, IH. destruct (f p); simpl; [|reflexivity].
  now rewrite app_nil_r.
Qed.

(** Each parcel fares along the route as if it were alone. *)
Lemma travel_parcels (r : list Loc) :
  forall s,
    VillageState.parcels (travel s r) =
    flat_map (fun p => survivors (fate (VillageState.place s) r p))
      (VillageState.parcels s).
Proof.
  induction r as [|d r IH]; intros s.
  - simpl. induction (VillageState.parcels s) as [|p ps IHps];
      simpl; congruence.
  - rewrite travel_cons, IH, moved_parcels, flat_map_survivors.
    apply flat_map_ext. intros p. simpl.
    now destruct (fate1 (VillageState.place s) d p).
Qed.

Lemma survivors_length (f : Parcel.t -> option Parcel.t)
  (ps : list Parcel.t) :
  List.length (flat_map (fun p => survivors (f p)) ps) <= List.length ps.
Proof.
  induction ps as [|p ps IH]; simpl; [lia|].
  rewrite length_app. destruct (f p); simpl; lia.
Qed.

Lemma travel_on_graph (graph : Graph) (r : list Loc) :
  closed graph ->
  forall s, on_graph graph s -> walk graph (VillageState.place s) r ->
            on_graph graph (travel s r).
Proof.
  intros Hc. induction r as [|d r IH]; intros s Hs Hwalk; [assumption|].
  destruct Hwalk as [Hd Hwalk]. rewrite travel_cons. apply IH.
  - apply moved_on_graph; [|assumption].
    apply In_neighbours in Hd. destruct Hd as (l & Hget & Hin).
    eapply Hc; eassumption.
  - assumption.
Qed.

(** A parcel at the place of the robot goes where the robot goes, until
    the robot is at its address. *)
Lemma fate_carried (r : list Loc) :
  forall here p,
    Parcel.place p = here ->
    fate here r p = None \/
    fate here r p = Some (Parcel.make (arrival here r) (Parcel.address p)).
Proof.
  induction r as [|d r IH]; intros here p Hp.
  - right. simpl. rewrite <- Hp. now destruct p.
  - simpl. unfold fate1. rewrite (carry_here here d p Hp).
    destruct (VillageState.undelivered _); [|now left].
    apply (IH d (Parcel.make d (Parcel.address p))). reflexivity.
Qed.

Lemma fate_delivered (r : list Loc) (here : Loc) (p : Parcel.t) :
  Parcel.place p = here -> r <> [] -> arrival here r = Parcel.address p ->
  fate here r p = None.
Proof.
  revert here p. induction r as [|d r IH]; intros here p Hp Hne Harr;
    [congruence|].
  simpl. unfold fate1. rewrite (carry_here here d p Hp).
  destruct (VillageState.undelivered _) eqn:Hund; [|reflexivity].
  apply undelivered_iff in Hund. simpl in Hund.
  apply IH; simpl; auto.
  intros ->. simpl in Harr. congruence.
Qed.

(** When the robot arrives where the parcel was, the parcel is delivered
    or at the place of the robot. *)
Lemma fate_arrive (r : list Loc) :
  forall here p,
    arrival here r = Parcel.place p ->
    fate here r p = None \/
    exists p', fate here r p = Some p' /\
               Parcel.place p' = arrival here r /\
               Parcel.address p' = Parcel.address p.
Proof.
  induction r as [|d r IH]; intros here p Harr.
  - right. exists p. simpl in *. auto.
  - destruct (Loc_eq_dec (Parcel.place p) here) as [Hp|Hp].
    + destruct (fate_carried (d :: r) here p Hp) as [H|H]; [now left|].
      right. eexists. split; [exact H|]. simpl. auto.
    + simpl. unfold fate1. rewrite (carry_elsewhere here d p Hp).
      destruct (VillageState.undelivered p); [|now left].
      apply IH. assumption.
Qed.

(** ** The step counter *)

Lemma ends_within_le (b b' : nat) (c : completion nat) :
  b <= b' -> ends_within b c -> ends_within b' c.
Proof.
  intros Hle (k & E & Hk). exists k. split; [assumption | lia].
Qed.

Lemma route_robot_follows : follows route_robot.
Proof. intros s d m draws. reflexivity. Qed.

Lemma goal_robot_follows (graph : Graph) : follows (goal_robot graph).
Proof. intros s d m draws. reflexivity. Qed.

(** A robot that follows its memory along a walk reaches the end of the
    walk, one turn for each stop, unless the parcels run out before. *)
Lemma follow_route (graph : Graph) (rb : robot) (draws : list draw)
  (bound fuel : nat) (rest : list Loc) :
  follows rb ->
  forall r s k,
    walk graph (VillageState.place s) r ->
    k + List.length r <= bound ->
    ends_within bound
      (countSteps_loop fuel graph rb (travel s r) (Some rest) draws
         (k + List.length r)) ->
    ends_within bound
      (countSteps_loop (List.length r + fuel) graph rb s (Some (r ++ rest))
         draws k).
Proof.
  intros Hrb. induction r as [|d r IH]; intros s k Hwalk Hk Hend.
  - simpl in *. now rewrite Nat.add_0_r in Hend.
  - destruct Hwalk as [Hd Hwalk]. simpl List.length in *.
    cbn [Nat.add countSteps_loop app].
    destruct (Nat.eqb (List.length (VillageState.parcels s)) 0).
    + exists k. split; [reflexivity | lia].
    + rewrite Hrb. cbn [bind]. rewrite (move_adjacent graph s d Hd).
      cbn [bind]. apply IH.
      * assumption.
      * lia.
      * rewrite travel_cons in Hend.
        now replace (S k + List.length r) with (k + S (List.length r)) by lia.
Qed.

Lemma follow_whole_route (graph : Graph) (rb : robot) (draws : list draw)
  (bound fuel : nat) (r : list Loc) (s : VillageState.t) (k : nat) :
  follows rb ->
  walk graph (VillageState.place s) r ->
  k + List.length r <= bound ->
  List.length r <= fuel ->
  ends_within bound
    (countSteps_loop (fuel - List.length r) graph rb (travel s r) (Some [])
       draws (k + List.length r)) ->
  ends_within bound (countSteps_loop fuel graph rb s (Some r) draws k).
Proof.
  intros Hrb Hwalk Hk Hfuel Hend.
  replace fuel with (List.length r + (fuel - List.length r)) by lia.
  replace (Some r) with (Some (r ++ [])) by now rewrite app_nil_r.
  now apply follow_route.
Qed.

(** ** The route robot delivers *)

Lemma route_robot_reset (graph : Graph) (fuel : nat) (s : VillageState.t)
  (draws : list draw) (k : nat) :
  countSteps_loop fuel graph route_robot s (Some []) draws k =
  countSteps_loop fuel graph route_robot s (Some mailRoute) draws k.
Proof.
  destruct fuel; reflexivity.
Qed.

Lemma mailRoute_round :
  walkb roadGraph (str "Post Office") mailRoute = true /\
  arrival (str "Post Office") mailRoute = str "Post Office".
Proof. split; vm_compute; reflexivity. Qed.

(** Twice round the mail route, every parcel of the village is delivered. *)
Lemma mailRoute_twice :
  forallb
    (fun a =>
       forallb
         (fun b => gone (fate (str "Post Office") (mailRoute ++ mailRoute)
                           (Parcel.make a b)))
         (keys roadGraph))
    (keys roadGraph) = true.
Proof. vm_compute. reflexivity. Qed.

Lemma mailRoute_delivers (p : Parcel.t) :
  is_vertex roadGraph (Parcel.place p) ->
  is_vertex roadGraph (Parcel.address p) ->
  fate (str "Post Office") (mailRoute ++ mailRoute) p = None.
Proof.
  intros Hplace Haddr. apply roadGraph_vertex in Hplace, Haddr.
  pose proof mailRoute_twice as H.
  rewrite forallb_forall in H. specialize (H _ Hplace).
  rewrite forallb_forall in H. specialize (H _ Haddr).
  destruct p as [a b]. cbn [Parcel.place Parcel.address] in H.
  unfold gone in H.
  destruct (fate (str "Post Office") (mailRoute ++ mailRoute)
              (Parcel.make a b)); [discriminate H | reflexivity].
Qed.

Lemma route_robot_run (ps : list Parcel.t) (draws : list draw) (fuel : nat) :
  (forall p, In p ps ->
             is_vertex roadGraph (Parcel.place p) /\
             is_vertex roadGraph (Parcel.address p)) ->
  26 < fuel ->
  ends_within 26
    (countSteps fuel roadGraph route_robot
       (VillageState.make (str "Post Office") ps) (Some []) draws).
Proof.
  intros Hps Hfuel. unfold countSteps.
  destruct mailRoute_round as [Hwalk Harr]. apply walkb_walk in Hwalk.
  set (s0 := VillageState.make (str "Post Office") ps).
  assert (Hlen : List.length mailRoute = 13) by reflexivity.
  rewrite route_robot_reset.
  replace fuel with (List.length mailRoute + (fuel - 13)) by lia.
  rewrite <- (app_nil_r mailRoute) at 2.
  apply follow_route;
    [apply route_robot_follows | exact Hwalk | lia |].
  rewrite route_robot_reset.
  replace (fuel - 13) with (List.length mailRoute + (fuel - 26)) by lia.
  rewrite <- (app_nil_r mailRoute) at 3.
  apply follow_route; [apply route_robot_follows | | lia |].
  - rewrite travel_place. simpl VillageState.place. rewrite Harr. exact Hwalk.
  - rewrite <- travel_app.
    destruct (fuel - 26) as [|fuel'] eqn:E; [lia|].
    cbn [countSteps_loop]. rewrite travel_parcels.
    simpl VillageState.place. simpl VillageState.parcels.
    assert (Hnone : flat_map
                      (fun p => survivors
                                  (fate (str "Post Office")
                                     (mailRoute ++ mailRoute) p)) ps = []).
    { clear - Hps. induction ps as [|p ps IH]; [reflexivity|].
      cbn [flat_map]. rewrite mailRoute_delivers.
      - simpl. apply IH. intros q Hq. apply Hps. now right.
      - exact (proj1 (Hps p (or_introl eq_refl))).
      - exact (proj2 (Hps p (or_introl eq_refl))). }
    rewrite Hnone. exists (0 + 13 + 13). split; [reflexivity | lia].
Qed.

(** X18: Starting from the post office without memory, as the comparison does,
    the route robot has delivered every parcel of the village after at
    most 26 turns: [countSteps] returns, and returns at most 26. *)
Theorem route_robot_delivers (ps : list Parcel.t) (draws : list draw)
  (fuel : nat) :
  (forall p, In p ps ->
             is_vertex roadGraph (Parcel.place p) /\
             is_vertex roadGraph (Parcel.address p)) ->
  26 < fuel ->
  exists steps,
    countSteps fuel roadGraph route_robot
      (VillageState.make (str "Post Office") ps) (Some []) draws =
    Return steps /\
    steps <= 26.
Proof.
  intros Hps Hfuel. now apply route_robot_run.
Qed.

Lemma route_robot_delivers_witness :
  exists steps,
    countSteps 27 roadGraph route_robot
      (VillageState.make (str "Post Office")
         [Parcel.make (str "Shop") (str "Cabin")]) (Some []) [] =
    Return steps /\
    steps <= 26.
Proof.
  apply (route_robot_delivers [Parcel.make (str "Shop") (str "Cabin")] [] 27).
  - intros p [<-|[]]. split; vm_compute; discriminate.
  - lia.
Defined.

(** ** The goal-oriented robot delivers *)

Lemma goal_robot_fresh (graph : Graph) (s : VillageState.t) (p : Parcel.t)
  (ps : list Parcel.t) (d : Loc) (m : list Loc) (fuel : nat)
  (draws : list draw) (k : nat) :
  VillageState.parcels s = p :: ps ->
  findRoute graph (VillageState.place s) (target s p) = Return (Some (d :: m)) ->
  countSteps_loop fuel graph (goal_robot graph) s (Some []) draws k =
  countSteps_loop fuel graph (goal_robot graph) s (Some (d :: m)) draws k.
Proof.
  intros Hps Hfind. destruct fuel; [reflexivity|].
  cbn [countSteps_loop].
  assert (E : goal_robot graph s (Some []) draws =
              goal_robot graph s (Some (d :: m)) draws).
  { unfold goal_robot, goalOrientedRobot. cbv zeta. rewrite Hps.
    cbn [List.length Nat.eqb].
    replace (if negb (loc_eqb (Parcel.place p) (VillageState.place s))
             then findRoute graph (VillageState.place s) (Parcel.place p)
             else findRoute graph (VillageState.place s) (Parcel.address p))
      with (findRoute graph (VillageState.place s) (target s p))
      by (unfold target; now destruct (negb _)).
    rewrite Hfind. reflexivity. }
  now rewrite E.
Qed.

(** Arithmetic on the turn counter, the lengths of routes computed. *)
Ltac arith := simpl List.length in *; lia.

Section GoalRun.
Variables (graph : Graph) (longest : nat).
Hypothesis Hclosed : closed graph.
Hypothesis Hrouted : routed graph longest.

Lemma route_to_target (s : VillageState.t) (p : Parcel.t) :
  on_graph graph s -> In p (VillageState.parcels s) ->
  exists d m,
    findRoute graph (VillageState.place s) (target s p) =
      Return (Some (d :: m)) /\
    List.length (d :: m) <= longest /\
    walk graph (VillageState.place s) (d :: m) /\
    arrival (VillageState.place s) (d :: m) = target s p.
Proof.
  intros [Hplace Hps] Hp. destruct (Hps p Hp) as [Hpp Hpa].
  assert (Ht : is_vertex graph (target s p)).
  { unfold target. now destruct (negb _). }
  destruct (Hrouted _ _ Hplace Ht) as (r & Hfind & Hlen).
  pose proof (findRoute_answer graph (VillageState.place s) (target s p))
    as Hans.
  rewrite Hfind in Hans. destruct Hans as (Hne & Hwalk & Harr & _).
  destruct r as [|d m]; [congruence|].
  exists d, m. auto.
Qed.

(** From a state whose first parcel is at the place of the robot, one route
    delivers that parcel. *)
Lemma deliver_first (n : nat) :
  (forall s k fuel draws,
      on_graph graph s -> List.length (VillageState.parcels s) <= n ->
      n * (2 * longest) < fuel ->
      ends_within (k + n * (2 * longest))
        (countSteps_loop fuel graph (goal_robot graph) s (Some []) draws k)) ->
  forall s p ps k fuel draws,
    on_graph graph s -> VillageState.parcels s = p :: ps ->
    Parcel.place p = VillageState.place s -> List.length ps <= n ->
    longest + n * (2 * longest) < fuel ->
    ends_within (k + longest + n * (2 * longest))
      (countSteps_loop fuel graph (goal_robot graph) s (Some []) draws k).
Proof.
  intros IH s p ps k fuel draws Hs Hps Hp Hlen Hfuel.
  destruct (route_to_target s p Hs) as (d & m & Hfind & Hr & Hwalk & Harr).
  { rewrite Hps. now left. }
  assert (Ht : target s p = Parcel.address p).
  { unfold target. now rewrite Hp, loc_eqb_refl. }
  rewrite Ht in Harr.
  rewrite (goal_robot_fresh graph s p ps d m fuel draws k Hps Hfind).
  apply follow_whole_route;
    [apply goal_robot_follows | assumption | lia | lia |].
  apply ends_within_le with (b := k + List.length (d :: m) + n * (2 * longest));
    [lia|].
  apply IH.
  - now apply travel_on_graph.
  - rewrite travel_parcels, Hps. cbn [flat_map].
    rewrite (fate_delivered (d :: m) (VillageState.place s) p Hp)
      by (assumption || discriminate).
    simpl survivors. simpl app.
    etransitivity; [apply survivors_length | assumption].
  - lia.
Qed.

Lemma goal_robot_run (n : nat) :
  forall s k fuel draws,
    on_graph graph s -> List.length (VillageState.parcels s) <= n ->
    n * (2 * longest) < fuel ->
    ends_within (k + n * (2 * longest))
      (countSteps_loop fuel graph (goal_robot graph) s (Some []) draws k).
Proof.
  induction n as [|n IH]; intros s k fuel draws Hs Hlen Hfuel.
  - destruct fuel as [|fuel]; [arith|]. cbn [countSteps_loop].
    destruct (VillageState.parcels s); [|simpl in Hlen; arith].
    exists k. split; [reflexivity | arith].
  - destruct (VillageState.parcels s) as [|p ps] eqn:Hps.
    { destruct fuel as [|fuel]; [arith|]. cbn [countSteps_loop].
      rewrite Hps. exists k. split; [reflexivity | arith]. }
    simpl in Hlen.
    change (S n * (2 * longest)) with (2 * longest + n * (2 * longest))
      in Hfuel |- *.
    destruct (Loc_eq_dec (Parcel.place p) (VillageState.place s)) as [Hp|Hp].
    { apply ends_within_le with (b := k + longest + n * (2 * longest));
        [arith|].
      apply (deliver_first n IH s p ps); auto; arith. }
    destruct (route_to_target s p Hs) as (d & m & Hfind & Hr & Hwalk & Harr).
    { rewrite Hps. now left. }
    assert (Ht : target s p = Parcel.place p).
    { unfold target. apply loc_eqb_neq in Hp. now rewrite Hp. }
    rewrite Ht in Harr.
    rewrite (goal_robot_fresh graph s p ps d m fuel draws k Hps Hfind).
    apply follow_whole_route;
      [apply goal_robot_follows | assumption | arith | arith |].
    assert (Hs' : on_graph graph (travel s (d :: m)))
      by now apply travel_on_graph.
    assert (Hparcels : VillageState.parcels (travel s (d :: m)) =
                       survivors (fate (VillageState.place s) (d :: m) p) ++
                       flat_map (fun q => survivors
                                   (fate (VillageState.place s) (d :: m) q)) ps).
    { now rewrite travel_parcels, Hps. }
    pose proof (survivors_length (fate (VillageState.place s) (d :: m)) ps)
      as Hrest.
    destruct (fate_arrive (d :: m) (VillageState.place s) p Harr)
      as [Hfate|(p' & Hfate & Hp' & _)]; rewrite Hfate in Hparcels.
    + apply ends_within_le
        with (b := k + List.length (d :: m) + n * (2 * longest)); [arith|].
      apply IH; [assumption | | arith].
      rewrite Hparcels. simpl app. arith.
    + apply ends_within_le
        with (b := k + List.length (d :: m) + longest + n * (2 * longest));
        [arith|].
      apply (deliver_first n IH _ p' _ _ _ _ Hs' Hparcels).
      * now rewrite travel_place.
      * arith.
      * arith.
Qed.
End GoalRun.

(** X19: On a graph without dangling roads on which [findRoute] returns a route
    of at most [longest] stops between any two vertices, from a state on
    the graph and without memory, the goal-oriented robot has delivered
    every parcel after at most [2 * longest] turns for each parcel:
    [countSteps] returns, and returns at most that many. *)
Theorem goal_robot_delivers (graph : Graph) (longest : nat)
  (s : VillageState.t) (draws : list draw) (fuel : nat) :
  closed graph -> routed graph longest -> on_graph graph s ->
  List.length (VillageState.parcels s) * (2 * longest) < fuel ->
  exists steps,
    countSteps fuel graph (goal_robot graph) s (Some []) draws =
      Return steps /\
    steps <= List.length (VillageState.parcels s) * (2 * longest).
Proof.
  intros Hc Hr Hs Hfuel. unfold countSteps.
  apply (goal_robot_run graph longest Hc Hr
           (List.length (VillageState.parcels s)) s 0 fuel draws); auto.
Qed.

(** The path finder returns a route of at most five stops between any two
    places of the village. *)
Lemma roadGraph_routes_short :
  forallb
    (fun a =>
       forallb
         (fun b =>
            finds (findRoute roadGraph a b) &&
            Nat.leb (route_length (findRoute roadGraph a b)) 5)
         (keys roadGraph))
    (keys roadGraph) = true.
Proof. vm_compute. reflexivity. Qed.

Lemma roadGraph_routed : routed roadGraph 5.
Proof.
  intros a b Ha Hb. apply roadGraph_vertex in Ha, Hb.
  pose proof roadGraph_routes_short as H.
  rewrite forallb_forall in H. specialize (H a Ha).
  rewrite forallb_forall in H. specialize (H b Hb).
  cbv beta in H. apply andb_true_iff in H. destruct H as [Hf Hl].
  destruct (findRoute roadGraph a b) as [[r|]|e|].
  - exists r. split; [reflexivity|]. apply Nat.leb_le. exact Hl.
  - simpl in Hf. congruence.
  - simpl in Hf. congruence.
  - simpl in Hf. congruence.
Qed.

Lemma goal_robot_delivers_witness :
  exists steps,
    countSteps 11 roadGraph (goal_robot roadGraph)
      (VillageState.make (str "Post Office")
         [Parcel.make (str "Shop") (str "Cabin")]) (Some []) [] =
      Return steps /\
    steps <= 1 * (2 * 5).
Proof.
  apply (goal_robot_delivers roadGraph 5
           (VillageState.make (str "Post Office")
              [Parcel.make (str "Shop") (str "Cabin")]) [] 11).
  - apply buildGraph_closed.
  - exact roadGraph_routed.
  - split; [vm_compute; discriminate|].
    intros p [<-|[]]; split; vm_compute; discriminate.
  - simpl. lia.
Defined.

(** ** Scenarios of the village *)

Lemma keys_is_vertex (graph : Graph) (a : Loc) :
  In a (keys graph) -> is_vertex graph a.
Proof.
  intros Hin. pose proof Hin as Hk. unfold keys in Hk.
  apply in_map_iff in Hk. destruct Hk as ([k l] & <- & _). simpl in *.
  unfold is_vertex. simpl. now apply get_In_keys.
Qed.

Lemma random_on_graph (parcelCount : nat) (draws : list draw)
  (s : VillageState.t) :
  VillageState.random roadGraph parcelCount draws = Return s ->
  VillageState.place s = str "Post Office" /\
  List.length (VillageState.parcels s) = parcelCount /\
  forall p, In p (VillageState.parcels s) ->
            is_vertex roadGraph (Parcel.place p) /\
            is_vertex roadGraph (Parcel.address p).
Proof.
  unfold VillageState.random.
  destruct (VillageState.random_parcels roadGraph parcelCount draws)
    as [ps| |] eqn:Hps; cbn [bind]; try discriminate.
  intros [= <-]. cbn [VillageState.place VillageState.parcels].
  destruct (random_parcels_returns roadGraph parcelCount draws ps Hps)
    as [Hlen Hall].
  split; [reflexivity|]. split; [assumption|].
  intros p Hp. destruct (Hall p Hp) as (_ & Hplace & Haddr).
  split; apply keys_is_vertex; assumption.
Qed.

(** X20: What one run of the comparison does: a scenario that [random] returns
    for the village is delivered by the route robot within 26 turns and by
    the goal-oriented robot within 10 turns for each parcel, both started
    without memory. *)
Theorem village_scenario_delivered (parcelCount : nat)
  (draws rest : list draw) (s : VillageState.t) (fuel : nat) :
  VillageState.random roadGraph parcelCount draws = Return s ->
  (26 < fuel ->
   exists steps,
     countSteps fuel roadGraph route_robot s (Some []) rest = Return steps /\
     steps <= 26) /\
  (parcelCount * 10 < fuel ->
   exists steps,
     countSteps fuel roadGraph (goal_robot roadGraph) s (Some []) rest =
       Return steps /\
     steps <= parcelCount * 10).
Proof.
  intros Hrandom.
  destruct (random_on_graph parcelCount draws s Hrandom)
    as (Hplace & Hlen & Hps).
  split; intros Hfuel.
  - destruct s as [place ps]. simpl in Hplace. subst place.
    now apply route_robot_run.
  - unfold countSteps. rewrite <- Hlen in *.
    apply (goal_robot_run roadGraph 5 (buildGraph_closed roads)
             roadGraph_routed (List.length (VillageState.parcels s))
             s 0 fuel rest); auto.
    split; [|assumption]. rewrite Hplace. unfold is_vertex.
    vm_compute. discriminate.
Qed.

Lemma village_scenario_delivered_witness :
  exists steps,
    countSteps 27 roadGraph route_robot
      (VillageState.make (str "Post Office")
         [Parcel.make (str "Alice's House") (str "Cabin")]) (Some []) [] =
      Return steps /\
    steps <= 26.
Proof.
  refine (proj1 (village_scenario_delivered 1
                   [Build_draw 1 3; Build_draw 1 3; Build_draw 0 0] []
                   (VillageState.make (str "Post Office")
                      [Parcel.make (str "Alice's House") (str "Cabin")])
                   27 _) _).
  - vm_compute. reflexivity.
  - lia.
Defined.

(** ** The random robot is safe *)

Lemma random_robot_run (edges : list string) (fuel : nat) :
  forall s m draws k,
    on_graph (buildGraph edges) s ->
    match countSteps_loop fuel (buildGraph edges)
            (random_robot (buildGraph edges)) s m draws k with
    | Return steps => k <= steps <= k + List.length draws
    | Throw _ => False
    | Running => True
    end.
Proof.
  induction fuel as [|fuel IH]; intros s m draws k Hs; [exact I|].
  cbn [countSteps_loop].
  destruct (Nat.eqb (List.length (VillageState.parcels s)) 0); [lia|].
  destruct draws as [|r draws]; [exact I|].
  cbn [random_robot]. unfold randomRobot.
  pose proof Hs as [Hplace _]. unfold is_vertex in Hplace.
  destruct (get (buildGraph edges) (key (VillageState.place s)))
    as [adjacent|] eqn:Hget; [|congruence].
  cbn [bind].
  assert (Hin : In (randomPick adjacent r)
                  (neighbours (buildGraph edges) (VillageState.place s))).
  { unfold neighbours. rewrite Hget. apply randomPick_In.
    eapply buildGraph_nonempty; eassumption. }
  rewrite (move_adjacent (buildGraph edges) s _ Hin). cbn [bind].
  specialize (IH (moved s (randomPick adjacent r)) None draws (S k)).
  unfold moved in IH.
  destruct (countSteps_loop fuel _ _ _ _ _ _); simpl List.length.
  - assert (S k <= a <= S k + List.length draws); [|lia].
    apply IH. apply moved_on_graph; [|assumption].
    unfold is_vertex. eapply buildGraph_closed; [exact Hget|].
    unfold neighbours in Hin. now rewrite Hget in Hin.
  - apply IH. apply moved_on_graph; [|assumption].
    unfold is_vertex. eapply buildGraph_closed; [exact Hget|].
    unfold neighbours in Hin. now rewrite Hget in Hin.
  - exact I.
Qed.

(** X21: On a built graph and from a state on the graph, [countSteps] with the
    random robot never throws, whatever the draws and the memory, and when
    it returns it has taken one draw for each turn it counts. *)
Theorem random_robot_safe (edges : list string) (s : VillageState.t)
  (m : option (list Loc)) (draws : list draw) (fuel : nat) :
  on_graph (buildGraph edges) s ->
  (forall e,
      countSteps fuel (buildGraph edges) (random_robot (buildGraph edges))
        s m draws <> Throw e) /\
  (forall steps,
      countSteps fuel (buildGraph edges) (random_robot (buildGraph edges))
        s m draws = Return steps ->
      steps <= List.length draws).
Proof.
  intros Hs. unfold countSteps.
  pose proof (random_robot_run edges fuel s m draws 0 Hs) as H.
  destruct (countSteps_loop fuel _ _ _ _ _ _).
  - split; [discriminate|]. intros steps [= <-]. lia.
  - contradiction.
  - split; discriminate.
Qed.

Lemma random_robot_safe_witness :
  countSteps 10 roadGraph (random_robot roadGraph)
    (VillageState.make (str "Post Office")
       [Parcel.make (str "Post Office") (str "Marketplace")])
    None [Build_draw 1 1] <> Throw TypeError.
Proof.
  refine (proj1 (random_robot_safe roads
                   (VillageState.make (str "Post Office")
                      [Parcel.make (str "Post Office") (str "Marketplace")])
                   None [Build_draw 1 1] 10 _) TypeError).
  split; [vm_compute; discriminate|].
  intros p [<-|[]]; split; vm_compute; discriminate.
Defined.

(** ** Edge cases *)

(** X7: An edge string without separator makes [undefined] a neighbour of its
    label, and the label a neighbour of the vertex of key "undefined". *)
Theorem buildGraph_malformed (edges : list string) (a : string) :
  no_dash a = true -> In a edges ->
  In undefined (neighbours (buildGraph edges) (str a)) /\
  In (str a) (neighbours (buildGraph edges) undefined) /\
  is_vertex (buildGraph edges) undefined.
Proof.
  intros Ha Hin.
  assert (Hends : ends a = (str a, undefined)).
  { unfold ends. now rewrite (split_no_dash a Ha). }
  assert (H1 : In undefined (adj (buildGraph edges) a)).
  { rewrite adj_buildGraph. apply in_flat_map. exists a.
    split; [assumption|]. unfold mentions. rewrite Hends. simpl.
    rewrite String.eqb_refl. now left. }
  assert (H2 : In (str a) (adj (buildGraph edges) "undefined")).
  { rewrite adj_buildGraph. apply in_flat_map. exists a.
    split; [assumption|]. unfold mentions. rewrite Hends. simpl.
    apply in_or_app. right. now left. }
  split; [exact H1|]. split; [exact H2|].
  unfold is_vertex. simpl. apply get_buildGraph.
  intros E. rewrite E in H2. contradiction.
Qed.

Lemma buildGraph_malformed_witness :
  In undefined (neighbours (buildGraph ["A-B"; "C"]) (str "C")).
Proof.
  apply (buildGraph_malformed ["A-B"; "C"] "C"); [reflexivity|].
  right. now left.
Defined.

(** X15: A neighbour of the start is reached in one stop. *)
Theorem findRoute_neighbour (graph : Graph) (from to : Loc) :
  In to (neighbours graph from) ->
  findRoute graph from to = Return (Some [to]).
Proof.
  intros Hin. apply In_neighbours in Hin. destruct Hin as (l & Hget & Hin).
  unfold findRoute, findRoute_fuel, turns. cbn [Nat.add findRoute_loop].
  cbn [nth_error at_ route]. rewrite Hget.
  now rewrite (scan_places_found to [] l _ Hin).
Qed.

Lemma findRoute_neighbour_witness :
  findRoute roadGraph (str "Shop") (str "Town Hall") =
  Return (Some [str "Town Hall"]).
Proof.
  apply (findRoute_neighbour roadGraph (str "Shop") (str "Town Hall")).
  vm_compute. tauto.
Defined.

(** X17: On a graph without dangling roads, the goal-oriented robot without
    memory throws when the place it plans to go to cannot be reached:
    [findRoute] returns [undefined] and the robot indexes it. *)
Theorem goalOrientedRobot_unreachable (graph : Graph) (s : VillageState.t)
  (p : Parcel.t) (ps : list Parcel.t) :
  closed graph -> is_vertex graph (VillageState.place s) ->
  VillageState.parcels s = p :: ps ->
  ~ reachable graph (VillageState.place s) (target s p) ->
  goalOrientedRobot graph s [] = Throw TypeError.
Proof.
  intros Hc Hplace Hps Hun.
  assert (Hfind : findRoute graph (VillageState.place s) (target s p) =
                  Return None).
  { pose proof (findRoute_answer graph (VillageState.place s) (target s p))
      as Hans.
    pose proof (findRoute_ends graph (VillageState.place s) (target s p))
      as Hends.
    pose proof (findRoute_fuel_no_throw graph (VillageState.place s)
                  (target s p) (turns graph)) as Hthrow.
    unfold findRoute in *.
    destruct (findRoute_fuel (turns graph) graph (VillageState.place s)
                (target s p)) as [[r|]|e|]; simpl in Hans.
    - exfalso. apply Hun. destruct Hans as (_ & Hw & Ha & _).
      exists r. split; assumption.
    - reflexivity.
    - exfalso. now apply (Hthrow e).
    - now contradiction Hends. }
  unfold goalOrientedRobot. cbv zeta. rewrite Hps. cbn [List.length Nat.eqb].
  replace (if negb (loc_eqb (Parcel.place p) (VillageState.place s))
           then findRoute graph (VillageState.place s) (Parcel.place p)
           else findRoute graph (VillageState.place s) (Parcel.address p))
    with (findRoute graph (VillageState.place s) (target s p))
    by (unfold target; now destruct (negb _)).
  rewrite Hfind. reflexivity.
Qed.

Lemma goalOrientedRobot_unreachable_witness :
  goalOrientedRobot (buildGraph ["A-B"; "C-D"])
    (VillageState.make (str "A") [Parcel.make (str "C") (str "D")]) [] =
  Throw TypeError.
Proof.
  apply (goalOrientedRobot_unreachable (buildGraph ["A-B"; "C-D"])
           (VillageState.make (str "A") [Parcel.make (str "C") (str "D")])
           (Parcel.make (str "C") (str "D")) []).
  - apply buildGraph_closed.
  - vm_compute. discriminate.
  - reflexivity.
  - intros (r & Hwalk & Harr).
    assert (Hin : In (arrival (str "A") r) [str "A"; str "B"]).
    { apply (walk_stays (buildGraph ["A-B"; "C-D"])); [|now left|assumption].
      intros a b [<-|[<-|[]]]; vm_compute; intros [<-|[]]; tauto. }
    simpl VillageState.place in Harr. rewrite Harr in Hin.
    vm_compute in Hin. destruct Hin as [H|[H|[]]]; discriminate H.
Defined.

Lemma countSteps_loop_counts (graph : Graph) (rb : robot) (fuel : nat) :
  forall s m draws k steps,
    countSteps_loop fuel graph rb s m draws k = Return steps ->
    k <= steps /\ (steps = k <-> VillageState.parcels s = []).
Proof.
  induction fuel as [|fuel IH]; intros s m draws k steps; [discriminate|].
  cbn [countSteps_loop].
  destruct (VillageState.parcels s) as [|p ps]; cbn [List.length Nat.eqb].
  - intros [= <-]. split; [lia | tauto].
  - destruct (rb s m draws) as [[[d m'] draws']| |]; cbn [bind];
      try discriminate.
    destruct (VillageState.move graph s d) as [s'| |]; cbn [bind];
      try discriminate.
    intros H. apply IH in H. destruct H as [Hle _].
    split; [lia|]. split; [lia | discriminate].
Qed.

(** X22: Whatever the robot, [countSteps] returns 0 exactly when the state has
    no parcel. *)
Theorem countSteps_zero (graph : Graph) (rb : robot) (fuel : nat)
  (s : VillageState.t) (m : option (list Loc)) (draws : list draw)
  (steps : nat) :
  countSteps fuel graph rb s m draws = Return steps ->
  (steps = 0 <-> VillageState.parcels s = []).
Proof.
  intros H. apply countSteps_loop_counts in H. tauto.
Qed.

Lemma countSteps_zero_witness :
  2 = 0 <->
  VillageState.parcels
    (VillageState.make (str "Post Office")
       [Parcel.make (str "Post Office") (str "Shop")]) = [].
Proof.
  apply (countSteps_zero roadGraph (goal_robot roadGraph) 5
           (VillageState.make (str "Post Office")
              [Parcel.make (str "Post Office") (str "Shop")])
           (Some []) [] 2).
  vm_compute. reflexivity.
Defined.

(** X23: From a state whose place has no adjacency array everything throws:
    [move] whatever the destination, [findRoute] whatever the target, the
    random robot whatever the draw, the goal-oriented robot without memory
    when there is a parcel, and with it [countSteps]. *)
Theorem off_graph_throws (graph : Graph) (s : VillageState.t) :
  ~ is_vertex graph (VillageState.place s) ->
  (forall d, VillageState.move graph s d = Throw TypeError) /\
  (forall to, findRoute graph (VillageState.place s) to = Throw TypeError) /\
  (forall r, randomRobot graph s r = Throw TypeError) /\
  (VillageState.parcels s <> [] ->
   goalOrientedRobot graph s [] = Throw TypeError /\
   forall fuel draws,
     countSteps (S fuel) graph (goal_robot graph) s (Some []) draws =
     Throw TypeError).
Proof.
  intros Hoff.
  assert (Hget : get graph (key (VillageState.place s)) = None).
  { unfold is_vertex in Hoff.
    destruct (get graph (key (VillageState.place s))); [|reflexivity].
    exfalso. apply Hoff. discriminate. }
  assert (Hfind : forall to,
             findRoute graph (VillageState.place s) to = Throw TypeError).
  { intros to. unfold findRoute, findRoute_fuel, turns.
    cbn [Nat.add findRoute_loop nth_error at_]. now rewrite Hget. }
  assert (Hgoal : VillageState.parcels s <> [] ->
                  goalOrientedRobot graph s [] = Throw TypeError).
  { intros Hps. unfold goalOrientedRobot. cbv zeta.
    destruct (VillageState.parcels s) as [|p ps]; [congruence|].
    cbn [List.length Nat.eqb]. destruct (negb _); now rewrite Hfind. }
  split; [|split; [|split]].
  - intros d. unfold VillageState.move. now rewrite Hget.
  - exact Hfind.
  - intros r. unfold randomRobot. now rewrite Hget.
  - intros Hps. pose proof (Hgoal Hps) as Hg. clear Hgoal.
    split; [exact Hg|]. intros fuel draws.
    unfold countSteps. cbn [countSteps_loop].
    destruct (VillageState.parcels s) as [|p ps]; [congruence|].
    cbn [List.length Nat.eqb]. unfold goal_robot.
    rewrite Hg. reflexivity.
Qed.

Lemma off_graph_throws_witness :
  VillageState.move roadGraph (VillageState.make (str "Nowhere") [])
    (str "Shop") = Throw TypeError.
Proof.
  refine (proj1 (off_graph_throws roadGraph
                   (VillageState.make (str "Nowhere") []) _) (str "Shop")).
  intros H. apply H. vm_compute. reflexivity.
Defined.
